(** * GestorTareas: the task manager with priorities and dependencies

    A shallow embedding of [src/segundo_parcial_eda/GestorTareas.py] and the
    properties of its scheduling core: adding tasks, the reverse dependency
    index, the executability test, completion, the priority listing and the
    JSON snapshot.

    Conventions of the embedding.
    - A Python [str] is a Rocq [string]; each [ascii] stands for the code
      point of the same number (0 to 255).
    - A Python [int] is a [Z]; the counter and list indices, which never go
      below zero, are [nat].
    - [self.completed_tasks] (a set) is a [gset string];
      [self.task_dependencies] (a dict of lists) is a [gmap string (list string)];
      [self.tasks] (the list handed to [heapq]) is a list of triples.
    - An exception is a value of [exn]; a method returns its result together
      with the object as the method left it.
    - [print] output is not modelled; what a method reports is its result. *)

From stdpp Require Import gmap strings list fin_maps sorting.
From Stdlib Require Import ZArith.
From Stdlib Require Import Ascii.

Local Open Scope Z_scope.
Local Open Scope nat_scope.

(** ** Python values and built-ins used by the program *)

Inductive exn :=
| ValueError            (* raised by [int] on a bad literal *)
| InvalidName           (* ValueError("El nombre de la tarea NO puede estar vacío") *)
| InvalidPriority       (* ValueError("La prioridad DEBE ser un número entero") *)
| UnknownDependency (invalid_dependencies : list string)
                        (* ValueError("Las siguientes dependencias no existen: " + ", ".join(...)) *)
| TypeError
| IndexError.

Inductive result (A : Type) :=
| Return (a : A)
| Raise (e : exn).
Arguments Return {A} a.
Arguments Raise {A} e.

(** The values [add_task] may receive as [priority]: an [int], a [str], a
    finite [float] (the dyadic rational [m * 2^e]) or [None]. *)
Inductive pyval :=
| PyInt (z : Z)
| PyStr (s : string)
| PyFloat (m e : Z)
| PyNone.

Definition code (c : ascii) : nat := nat_of_ascii c.

(** [str.isspace] on the code points 0..255, as [str.strip] uses it. *)
Definition is_space (c : ascii) : bool :=
  let n := code c in
  ((9 <=? n) && (n <=? 13)) || ((28 <=? n) && (n <=? 32))
  || (n =? 133) || (n =? 160).

(** The blanks [int] skips around a literal: as above without the
    separators 28..31. *)
Definition is_int_space (c : ascii) : bool :=
  let n := code c in
  ((9 <=? n) && (n <=? 13)) || (n =? 32) || (n =? 133) || (n =? 160).

Fixpoint lstrip (sp : ascii → bool) (s : string) : string :=
  match s with
  | EmptyString => EmptyString
  | String c s' => if sp c then lstrip sp s' else s
  end.

Fixpoint rstrip (sp : ascii → bool) (s : string) : string :=
  match s with
  | EmptyString => EmptyString
  | String c s' =>
      match rstrip sp s' with
      | EmptyString => if sp c then EmptyString else String c EmptyString
      | r => String c r
      end
  end.

(** [s.strip()] *)
Definition strip (s : string) : string := rstrip is_space (lstrip is_space s).

Definition is_digit (c : ascii) : bool := (48 <=? code c) && (code c <=? 57).

(** Digits of a base-10 literal, with single underscores between digits. *)
Fixpoint parse_digits (s : string) (acc : Z) (after_digit : bool) : option Z :=
  match s with
  | EmptyString => if after_digit then Some acc else None
  | String c s' =>
      if is_digit c then
        parse_digits s' (10 * acc + Z.of_nat (code c - 48))%Z true
      else if (code c =? 95) && after_digit then parse_digits s' acc false
      else None
  end.

(** [int(s)] for a [str]: blanks, an optional sign, digits. *)
Definition int_of_str (s : string) : option Z :=
  match rstrip is_int_space (lstrip is_int_space s) with
  | String c s' =>
      if code c =? 45 then Z.opp <$> parse_digits s' 0%Z false
      else if code c =? 43 then parse_digits s' 0%Z false
      else parse_digits (String c s') 0%Z false
  | EmptyString => None
  end.

(** [int(x)] *)
Definition py_int (x : pyval) : result Z :=
  match x with
  | PyInt z => Return z
  | PyStr s =>
      match int_of_str s with
      | Some z => Return z
      | None => Raise ValueError
      end
  | PyFloat m e =>
      Return (if (0 <=? e)%Z then m * 2 ^ e else Z.quot m (2 ^ (- e)))%Z
  | PyNone => Raise TypeError
  end.

(** ** Data model *)

(** The dict built at lines 52-57. *)
Record task := mkTask {
  name : string;
  priority : Z;
  dependencies : list string;
  deadline : option string
}.

Global Instance task_eq_dec : EqDecision task.
Proof. solve_decision. Defined.

(** An element of [self.tasks]: the tuple [(priority, counter, task)]. *)
Definition entry : Type := Z * nat * task.

Definition entry_priority (x : entry) : Z := x.1.1.
Definition entry_counter (x : entry) : nat := x.1.2.
Definition entry_task (x : entry) : task := x.2.

(** What [json.dump] writes (lines 189-193). *)
Record snapshot := mkSnapshot {
  snap_tasks : list task;
  snap_completed_tasks : list string;
  snap_task_dependencies : gmap string (list string)
}.

(** The file named [self.filename]: absent, not valid JSON (which a file
    left half written is), or the text of a snapshot. *)
Inductive file :=
| Missing
| Corrupt
| Stored (data : snapshot).

Record TaskManager := mkTaskManager {
  tasks : list entry;
  completed_tasks : gset string;
  task_dependencies : gmap string (list string);
  counter : nat;
  disk : file
}.

(** ** heapq *)

(** The two library functions the manager calls, [heappush] and [heapify],
    after the reference implementation [Lib/heapq.py]. *)

(** [a < b] on the stored tuples. Python compares the first components that
    differ; when priority and counter agree it reaches the two dicts, which
    are not ordered: equal dicts make the tuples equal, different ones raise
    [TypeError] ([None] here). *)
Definition entry_lt (a b : entry) : option bool :=
  let '(pa, ca, ta) := a in
  let '(pb, cb, tb) := b in
  if decide (pa = pb) then
    if decide (ca = cb) then
      if decide (ta = tb) then Some false else None
    else Some (ca <? cb)
  else Some (pa <? pb)%Z.

(** The heap functions mutate the list in place; on an exception the list
    stays as far as they got. *)
Inductive heap_result :=
| HeapOk (heap : list entry)
| HeapRaise (e : exn) (heap : list entry).

(** The [while pos > startpos] loop of [_siftdown]. [pos] only decreases, so
    [fuel = pos] iterations are enough; with no fuel left [pos] is 0 and the
    loop has ended. *)
Fixpoint siftdown_loop (fuel : nat) (heap : list entry) (newitem : entry)
    (startpos pos : nat) : heap_result :=
  match fuel with
  | S fuel' =>
      if decide (startpos < pos) then
        let parentpos := Nat.shiftr (pos - 1) 1 in
        match heap !! parentpos with
        | None => HeapRaise IndexError heap
        | Some parent =>
            match entry_lt newitem parent with
            | None => HeapRaise TypeError heap
            | Some true =>
                siftdown_loop fuel' (<[pos := parent]> heap) newitem startpos parentpos
            | Some false => HeapOk (<[pos := newitem]> heap)
            end
        end
      else HeapOk (<[pos := newitem]> heap)
  | 0 => HeapOk (<[pos := newitem]> heap)
  end.

Definition _siftdown (heap : list entry) (startpos pos : nat) : heap_result :=
  match heap !! pos with
  | None => HeapRaise IndexError heap
  | Some newitem => siftdown_loop pos heap newitem startpos pos
  end.

(** [rightpos < endpos and not heap[childpos] < heap[rightpos]] *)
Definition right_is_smaller (heap : list entry) (endpos childpos : nat) : result bool :=
  let rightpos := childpos + 1 in
  if decide (rightpos < endpos) then
    match heap !! childpos, heap !! rightpos with
    | Some c, Some r =>
        match entry_lt c r with
        | Some b => Return (negb b)
        | None => Raise TypeError
        end
    | _, _ => Raise IndexError
    end
  else Return false.

(** The [while childpos < endpos] loop of [_siftup] and what follows it.
    [pos] only grows and stays below [endpos], so [fuel = endpos] is enough. *)
Fixpoint siftup_loop (fuel : nat) (heap : list entry) (newitem : entry)
    (startpos endpos pos : nat) : heap_result :=
  let childpos := 2 * pos + 1 in
  match fuel with
  | S fuel' =>
      if decide (childpos < endpos) then
        match right_is_smaller heap endpos childpos with
        | Raise e => HeapRaise e heap
        | Return go_right =>
            let childpos := if go_right then childpos + 1 else childpos in
            match heap !! childpos with
            | None => HeapRaise IndexError heap
            | Some child =>
                siftup_loop fuel' (<[pos := child]> heap) newitem startpos endpos childpos
            end
        end
      else _siftdown (<[pos := newitem]> heap) startpos pos
  | 0 => _siftdown (<[pos := newitem]> heap) startpos pos
  end.

Definition _siftup (heap : list entry) (pos : nat) : heap_result :=
  let endpos := length heap in
  match heap !! pos with
  | None => HeapRaise IndexError heap
  | Some newitem => siftup_loop endpos heap newitem pos endpos pos
  end.

(** [heapq.heappush(heap, item)] *)
Definition heappush (heap : list entry) (item : entry) : heap_result :=
  let heap := heap ++ [item] in
  _siftdown heap 0 (length heap - 1).

(** [heapq.heapify(x)]: [for i in reversed(range(n//2)): _siftup(x, i)] *)
Definition heapify (x : list entry) : heap_result :=
  let n := length x in
  foldl (λ acc i, match acc with
                  | HeapOk heap => _siftup heap i
                  | HeapRaise e heap => HeapRaise e heap
                  end)
        (HeapOk x) (reverse (seq 0 (n / 2))).

(** ** The TaskManager methods *)

(** [sorted(l, key=lambda x: x[0])]: Python's sort is stable, and a stable
    sort has one possible result; insertion from the right computes it. *)
Fixpoint insert_by_priority (x : entry) (l : list entry) : list entry :=
  match l with
  | [] => [x]
  | y :: l' =>
      if (entry_priority x <=? entry_priority y)%Z then x :: y :: l'
      else y :: insert_by_priority x l'
  end.

Definition sorted_by_priority (l : list entry) : list entry :=
  foldr insert_by_priority [] l.

Definition is_task_executable (self : TaskManager) (t : task) : bool * list string :=
  match dependencies t with
  | [] => (true, [])
  | _ :: _ =>
      let pending_dependencies :=
        filter (λ dep, dep ∉ completed_tasks self) (dependencies t) in
      (length pending_dependencies =? 0, pending_dependencies)
  end.

(** [json.dump] writes an integer with [int.__repr__], which raises
    [ValueError] for an integer of more than 4300 decimal digits
    ([sys.int_info.default_max_str_digits]); every other value a task dict
    holds here can be written. *)
Definition int_repr_limit : Z := Eval vm_compute in (10 ^ 4300)%Z.

Definition has_repr (z : Z) : bool := (Z.abs z <? int_repr_limit)%Z.

Global Arguments has_repr : simpl never.

(** [json.dump(data, f, indent=4)] reaches the end of [data]. *)
Definition dumps (data : snapshot) : bool :=
  forallb (λ t, has_repr (priority t)) (snap_tasks data).

(** [save_tasks]: [open(..., 'w')] empties the file and [json.dump] writes
    the snapshot piece by piece. When it raises on a priority, the text
    written so far stays, cut off inside the task list, which is not valid
    JSON; the exception is caught and printed (lines 196-197) and the
    object is as it was. Failures of the file system are not modelled. *)
Definition save_tasks (self : TaskManager) : TaskManager :=
  let data := {|
    snap_tasks := entry_task <$> tasks self;
    snap_completed_tasks := elements (completed_tasks self);
    snap_task_dependencies := task_dependencies self
  |} in
  mkTaskManager (tasks self) (completed_tasks self) (task_dependencies self)
                (counter self) (if dumps data then Stored data else Corrupt).

(** Every pending priority can be written: [save_tasks] succeeds. *)
Definition storable (self : TaskManager) : Prop :=
  Forall (λ x, has_repr (priority (entry_task x)) = true) (tasks self).

Global Instance storable_dec (self : TaskManager) : Decision (storable self).
Proof. unfold storable. apply _. Defined.

(** [load_tasks]: [json.load] gives back the value [json.dump] wrote. *)
Definition load_tasks (self : TaskManager) : TaskManager :=
  match disk self with
  | Stored data =>
      let loaded := imap (λ index t, (priority t, index, t)) (snap_tasks data) in
      mkTaskManager loaded
                    (list_to_set (snap_completed_tasks data))
                    (snap_task_dependencies data)
                    (length loaded)
                    (disk self)
  | Missing | Corrupt =>
      save_tasks (mkTaskManager [] ∅ ∅ (counter self) (disk self))
  end.

(** [TaskManager(filename)], lines 7-13. *)
Definition TaskManager_init (f : file) : TaskManager :=
  load_tasks (mkTaskManager [] ∅ ∅ 0 f).

(** [[task['name'] for _, _, task in self.tasks]] *)
Definition names_of (l : list entry) : list string :=
  (λ x, name (entry_task x)) <$> l.

(** Lines 64-67, one turn of the loop. *)
Definition record_edge (new_name : string) (index : gmap string (list string))
    (dep : string) : gmap string (list string) :=
  let index := match index !! dep with
               | None => <[dep := []]> index
               | Some _ => index
               end in
  match index !! dep with
  | Some dependents => <[dep := dependents ++ [new_name]]> index
  | None => index
  end.

(** [add_task(name, priority, dependencies, deadline)]. The default
    [dependencies=None] becomes [[]] at line 41, so the list is taken here.
    The call of [is_task_executable] at line 62 only chooses the message
    printed. *)
Definition add_task (self : TaskManager) (new_name : string) (new_priority : pyval)
    (new_dependencies : list string) (new_deadline : option string)
    : result task * TaskManager :=
  if bool_decide (new_name = "") || bool_decide (strip new_name = "") then
    (Raise InvalidName, self)
  else
    match py_int new_priority with
    | Raise ValueError => (Raise InvalidPriority, self)
    | Raise e => (Raise e, self)
    | Return p =>
        let invalid_dependencies :=
          filter (λ dep, (dep ∉ names_of (tasks self)) ∧ (dep ∉ completed_tasks self))
                 new_dependencies in
        match invalid_dependencies with
        | _ :: _ => (Raise (UnknownDependency invalid_dependencies), self)
        | [] =>
            let t := mkTask new_name p new_dependencies new_deadline in
            let counter' := counter self + 1 in
            match heappush (tasks self) (p, counter', t) with
            | HeapRaise e heap =>
                (Raise e, mkTaskManager heap (completed_tasks self)
                            (task_dependencies self) counter' (disk self))
            | HeapOk heap =>
                let index := foldl (record_edge new_name)
                                   (task_dependencies self) new_dependencies in
                (Return t, save_tasks (mkTaskManager heap (completed_tasks self)
                                          index counter' (disk self)))
            end
        end
    end.

(** [check_task_executability]: the two lists it prints. *)
Definition check_task_executability (self : TaskManager)
    : list string * list (string * list string) :=
  foldl (λ '(executable_tasks, non_executable_tasks) x,
           let t := entry_task x in
           let '(is_executable, pending_deps) := is_task_executable self t in
           if is_executable then (executable_tasks ++ [name t], non_executable_tasks)
           else (executable_tasks, non_executable_tasks ++ [(name t, pending_deps)]))
        ([], []) (tasks self).

(** What [complete_task] prints before it returns [None]. *)
Inductive completion :=
| Completed                                   (* "Tarea ... completada." *)
| NotFound                                    (* "Tarea ... no encontrada." *)
| UnmetDependencies (pending : list string)   (* "Las siguientes dependencias no han sido completadas" *)
| BlockedByDependents (blocked : list string) (* "Otras tareas dependen de esta" *).

(** [complete_task(task_name)]. Every branch inside the loop returns, so only
    the first entry with that name is looked at. After a completion
    [check_task_executability] prints its two lists and changes nothing. *)
Definition complete_task (self : TaskManager) (task_name : string)
    : result completion * TaskManager :=
  match list_find (λ x : entry, name (entry_task x) = task_name) (tasks self) with
  | None => (Return NotFound, self)
  | Some (index, x) =>
      let '(_, pending_dependencies) := is_task_executable self (entry_task x) in
      match pending_dependencies with
      | _ :: _ => (Return (UnmetDependencies pending_dependencies), self)
      | [] =>
          let tareas_bloqueadas :=
            match task_dependencies self !! task_name with
            | Some dependientes =>
                filter (λ dep, dep ∉ completed_tasks self) dependientes
            | None => []
            end in
          match tareas_bloqueadas with
          | _ :: _ => (Return (BlockedByDependents tareas_bloqueadas), self)
          | [] =>
              match heapify (delete index (tasks self)) with
              | HeapRaise e heap =>
                  (Raise e, mkTaskManager heap (completed_tasks self)
                              (task_dependencies self) (counter self) (disk self))
              | HeapOk heap =>
                  (Return Completed,
                   save_tasks (mkTaskManager heap
                                 ({[task_name]} ∪ completed_tasks self)
                                 (task_dependencies self) (counter self) (disk self)))
              end
          end
      end
  end.

(** Option 2 of [main]: the pending tasks in the order they are shown. *)
Definition pending_listing (self : TaskManager) : list task :=
  entry_task <$> sorted_by_priority (tasks self).

(** ** Runs of the program *)

(** A call on the manager, or a restart of the program on the same file.
    [main] catches every exception and goes on with the object as it is. *)
Inductive op :=
| Add (new_name : string) (new_priority : pyval) (new_dependencies : list string)
      (new_deadline : option string)
| Complete (task_name : string)
| Restart.

Definition step (self : TaskManager) (o : op) : TaskManager :=
  match o with
  | Add n p d dl => (add_task self n p d dl).2
  | Complete n => (complete_task self n).2
  | Restart => TaskManager_init (disk self)
  end.

Definition run (self : TaskManager) (ops : list op) : TaskManager :=
  foldl step self ops.

(** The sequence numbers handed out by the successful adds of a run, in
    order. *)
Fixpoint assigned_sequences (self : TaskManager) (ops : list op) : list nat :=
  match ops with
  | [] => []
  | o :: ops' =>
      match o with
      | Add n p d dl =>
          match (add_task self n p d dl).1 with
          | Return _ => [counter self + 1]
          | Raise _ => []
          end
      | _ => []
      end ++ assigned_sequences (step self o) ops'
  end.

(** ** Predicates of the statements *)

Definition priority_le (x y : entry) : Prop :=
  (entry_priority x ≤ entry_priority y)%Z.

(** No comparison inside the list reaches two different dicts. *)
Definition comparable (l : list entry) : Prop :=
  ∀ a b, a ∈ l → b ∈ l → is_Some (entry_lt a b).

(** The pending entries carry pairwise different counters, none above
    [self.counter]. *)
Definition well_formed (self : TaskManager) : Prop :=
  NoDup (entry_counter <$> tasks self)
  ∧ Forall (λ x, entry_counter x ≤ counter self) (tasks self).

(** The name is empty or made of blanks only. *)
Fixpoint whitespace_only (s : string) : bool :=
  match s with
  | EmptyString => true
  | String c s' => is_space c && whitespace_only s'
  end.

(** A dependency of a new task that names no pending and no completed task. *)
Definition unknown (self : TaskManager) (dep : string) : Prop :=
  (dep ∉ names_of (tasks self)) ∧ (dep ∉ completed_tasks self).

(** The recorded dependents of a name: [self.task_dependencies[name]], empty
    when the name is no key. *)
Definition dependents_of (self : TaskManager) (dep : string) : list string :=
  default [] (task_dependencies self !! dep).

(** The object after a successful [add_task] that left [heap] behind. *)
Definition after_add (self : TaskManager) (heap : list entry) (new_name : string)
    (new_dependencies : list string) : TaskManager :=
  save_tasks (mkTaskManager heap (completed_tasks self)
                (foldl (record_edge new_name) (task_dependencies self) new_dependencies)
                (counter self + 1) (disk self)).

(** The object after a successful [complete_task] that left [heap] behind. *)
Definition after_complete (self : TaskManager) (heap : list entry)
    (task_name : string) : TaskManager :=
  save_tasks (mkTaskManager heap ({[task_name]} ∪ completed_tasks self)
                (task_dependencies self) (counter self) (disk self)).

(** The objects the program can be in: created on some file, then driven
    by calls and restarts. *)
Definition reachable (self : TaskManager) : Prop :=
  ∃ f ops, self = run (TaskManager_init f) ops.

(** The first component of every stored tuple is the priority of its task. *)
Definition priorities_agree (l : list entry) : Prop :=
  Forall (λ x, entry_priority x = priority (entry_task x)) l.

(** The manager of a program started without a file. *)
Definition fresh : TaskManager := TaskManager_init Missing.

(** Four tasks added with priorities 5, 1, 5, 3, in that order. *)
Definition four_tasks : TaskManager :=
  run fresh [Add "task1" (PyInt 5) [] None; Add "task2" (PyInt 1) [] None;
             Add "task3" (PyInt 5) [] None; Add "task4" (PyInt 3) [] None].

(** Two tasks of priority 5, then one of priority 1, then that one completed. *)
Definition two_ties : TaskManager :=
  run fresh [Add "a" (PyInt 5) [] None; Add "b" (PyInt 5) [] None].

Definition two_ties_and_one : TaskManager :=
  step two_ties (Add "c" (PyInt 1) [] None).

Definition two_ties_again : TaskManager :=
  step two_ties_and_one (Complete "c").

(** The scenario of the two dependent tasks. *)
Definition foundation_walls : TaskManager :=
  run fresh [Add "Foundation" (PyInt 1) [] None;
             Add "Walls" (PyInt 2) ["Foundation"] None].

(** A plan made and completed, then a foundation and walls that wait for
    it. *)
Definition stored_run : list op :=
  [Add "Plan" (PyInt 0) [] None; Complete "Plan";
   Add "Foundation" (PyInt 1) [] None;
   Add "Walls" (PyInt 2) ["Foundation"] None].

(** One pending task whose priority is written with 4301 digits. *)
Definition long_priority : TaskManager :=
  step fresh (Add "t" (PyInt (10 ^ 4300)) [] None).

(** One pending task named A. *)
Definition one_task : TaskManager := step fresh (Add "A" (PyInt 1) [] None).

(** D pending, and B pending with D as its dependency. *)
Definition one_dependent : TaskManager :=
  run fresh [Add "D" (PyInt 1) [] None; Add "B" (PyInt 2) ["D"] None].

(** A pending, and B added with A written twice among its dependencies. *)
Definition repeated_dependency : TaskManager :=
  run fresh [Add "A" (PyInt 1) [] None; Add "B" (PyInt 1) ["A"; "A"] None].

(** A completed, then B (depending on A) added and completed, then a task
    named A added again. *)
Definition dependents_done : TaskManager :=
  run fresh [Add "A" (PyInt 1) [] None; Complete "A";
             Add "B" (PyInt 2) ["A"] None; Complete "B";
             Add "A" (PyInt 3) [] None].

(** Every pending task is recorded among the dependents of each of its
    dependencies, and the file is as [save_tasks] leaves it for the
    object. *)
Definition edges_recorded (self : TaskManager) : Prop :=
  (∀ x d, x ∈ tasks self → d ∈ dependencies (entry_task x) →
          name (entry_task x) ∈ dependents_of self d)
  ∧ save_tasks self = self.

(** The three exceptions [add_task] raises itself (lines 34, 39 and 50). *)
Definition validation_error (e : exn) : Prop :=
  e = InvalidName ∨ e = InvalidPriority ∨ ∃ names, e = UnknownDependency names.

(** What [json.dump] writes for a manager without tasks. *)
Definition empty_snapshot : snapshot := mkSnapshot [] [] ∅.

(** The entry of a pending task whose dependencies are all completed
    (the first component of [is_task_executable]). *)
Definition executable (self : TaskManager) (x : entry) : Prop :=
  (is_task_executable self (entry_task x)).1 = true.

Global Instance executable_dec self x : Decision (executable self x).
Proof. unfold executable. apply _. Defined.

(** The manager as it stands after a run of calls and restarts that began
    without a file. *)
Definition from_fresh (ops : list op) : TaskManager := run fresh ops.

(** A name that [add_task] accepts as a dependency: the name of a pending
    task or a completed name (line 46). *)
Definition known (self : TaskManager) (dep : string) : Prop :=
  dep ∈ names_of (tasks self) ∨ dep ∈ completed_tasks self.

(** What the listing shows of an entry: its priority and its task. *)
Definition shown (x : entry) : Z * task := (entry_priority x, entry_task x).

(** B is a recorded dependent of A, neither name is completed, and every
    pending task named B has A among its dependencies. *)
Definition blocked_pair (A B : string) (self : TaskManager) : Prop :=
  (A ∉ completed_tasks self) ∧ (B ∉ completed_tasks self)
  ∧ B ∈ dependents_of self A
  ∧ Forall (λ x, name (entry_task x) = B → A ∈ dependencies (entry_task x))
           (tasks self).

(** The call brings no priority of more than 4300 digits. *)
Definition short_op (o : op) : bool :=
  match o with
  | Add _ p _ _ => match py_int p with Return z => has_repr z | Raise _ => true end
  | _ => true
  end.

(** The call adds no task named B, unless with A among its dependencies. *)
Definition keeps_pair (A B : string) (o : op) : Prop :=
  match o with
  | Add n _ deps _ => n ≠ B ∨ A ∈ deps
  | _ => True
  end.

(** ** The dependency line of the menu *)

(** [c in s] for a character. *)
Fixpoint contains (c : ascii) (s : string) : bool :=
  match s with
  | EmptyString => false
  | String c' s' => bool_decide (c' = c) || contains c s'
  end.

(** [s.split(sep)] for a one-character separator: the pieces between the
    separators, empty pieces included, at least one piece. *)
Fixpoint split (sep : ascii) (s : string) : list string :=
  match s with
  | EmptyString => [EmptyString]
  | String c s' =>
      if bool_decide (c = sep) then EmptyString :: split sep s'
      else match split sep s' with
           | piece :: pieces => String c piece :: pieces
           | [] => [String c EmptyString]
           end
  end.

(** [sep.join(l)] *)
Fixpoint join (sep : string) (l : list string) : string :=
  match l with
  | [] => EmptyString
  | [x] => x
  | x :: l' => x +:+ sep +:+ join sep l'
  end.

(** Line 223 of [main]:
    [[dep.strip() for dep in dependencias.split(',') if dep.strip()]] *)
Definition parse_dependencies (dependencias : string) : list string :=
  strip <$> filter (λ dep, strip dep ≠ EmptyString) (split ","%char dependencias).

(** ** The heap order *)

(** The order of the stored tuples as far as priority and counter decide
    it: lower priority first, then lower counter. *)
Definition key_le (x y : entry) : Prop :=
  (entry_priority x < entry_priority y)%Z
  ∨ (entry_priority x = entry_priority y ∧ entry_counter x ≤ entry_counter y).

(** The position above [j] in the heap: [(j - 1) >> 1]. *)
Definition parent (j : nat) : nat := Nat.shiftr (j - 1) 1.

(** Every element whose parent sits at position [s] or later is not below
    its parent in the order. *)
Definition heap_from (s : nat) (l : list entry) : Prop :=
  ∀ j x y, 0 < j → s ≤ parent j →
           l !! j = Some y → l !! parent j = Some x → key_le x y.

(** The invariant of [heapq]: no element is below its parent. *)
Definition is_heap (l : list entry) : Prop := heap_from 0 l.

(** Position [j] lies in the subtree of position [s]. *)
Inductive descends (s : nat) : nat → Prop :=
| descends_here : descends s s
| descends_below j : 0 < j → descends s (parent j) → descends s j.

(** While [_siftdown] carries an item up: every element but the one at
    [pos] is in order with its parent, and the children of [pos] are in
    order with the parent of [pos]. *)
Definition sifting_down (s pos : nat) (v : list entry) : Prop :=
  (∀ j x y, 0 < j → s ≤ parent j → j ≠ pos →
            v !! j = Some y → v !! parent j = Some x → key_le x y)
  ∧ (s < pos → ∀ j x y, 0 < j → parent j = pos →
                        v !! j = Some y → v !! parent pos = Some x → key_le x y).

(** While [_siftup] carries the hole down: every edge that does not touch
    [pos] is in order, and the children of [pos] are in order with the
    parent of [pos]. *)
Definition sifting_up (s pos : nat) (v : list entry) : Prop :=
  (∀ j x y, 0 < j → s ≤ parent j → j ≠ pos → parent j ≠ pos →
            v !! j = Some y → v !! parent j = Some x → key_le x y)
  ∧ (s < pos → ∀ j x y, 0 < j → parent j = pos →
                        v !! j = Some y → v !! parent pos = Some x → key_le x y).

(** ** The menu *)

Definition is_dash (c : ascii) : bool := code c =? 45.

Definition digit (c : ascii) : nat := code c - 48.

Definition in_range (lo hi : nat) (c : ascii) : bool :=
  (48 + lo <=? code c) && (code c <=? 48 + hi).

(** The directive [%m] followed by the dash of the format: the alternatives
    [1[0-2]], [0[1-9]] and [[1-9]] in this order; the rest of the text is
    handed on. *)
Definition parse_month (s : string) : option (nat * string) :=
  match s with
  | String a (String b rest) =>
      match rest with
      | String c rest' =>
          if in_range 1 1 a && in_range 0 2 b && is_dash c then
            Some (10 + digit b, rest')
          else if in_range 0 0 a && in_range 1 9 b && is_dash c then
            Some (digit b, rest')
          else if in_range 1 9 a && is_dash b then Some (digit a, rest)
          else None
      | EmptyString =>
          if in_range 1 9 a && is_dash b then Some (digit a, rest) else None
      end
  | _ => None
  end.

(** The directive [%d] at the end of the text: [3[0-1]], [[1-2]\d],
    [0[1-9]], [[1-9]] or a blank and [[1-9]], with nothing left over. *)
Definition parse_day (s : string) : option nat :=
  match s with
  | String a EmptyString => if in_range 1 9 a then Some (digit a) else None
  | String a (String b EmptyString) =>
      if in_range 3 3 a && in_range 0 1 b then Some (30 + digit b)
      else if in_range 1 2 a && in_range 0 9 b then Some (10 * digit a + digit b)
      else if in_range 0 0 a && in_range 1 9 b then Some (digit b)
      else if (code a =? 32) && in_range 1 9 b then Some (digit b)
      else None
  | _ => None
  end.

(** The fields [strptime] reads with the format ["%Y-%m-%d"]. *)
Definition parse_date (s : string) : option (nat * nat * nat) :=
  match s with
  | String y1 (String y2 (String y3 (String y4 (String dash rest)))) =>
      if in_range 0 9 y1 && in_range 0 9 y2 && in_range 0 9 y3 && in_range 0 9 y4
         && is_dash dash then
        match parse_month rest with
        | Some (m, rest') =>
            match parse_day rest' with
            | Some d =>
                Some (1000 * digit y1 + 100 * digit y2 + 10 * digit y3 + digit y4, m, d)
            | None => None
            end
        | None => None
        end
      else None
  | _ => None
  end.

Definition leap_year (y : nat) : bool :=
  (y mod 4 =? 0) && (negb (y mod 100 =? 0) || (y mod 400 =? 0)).

Definition days_in_month (y m : nat) : nat :=
  if m =? 2 then (if leap_year y then 29 else 28)
  else if (m =? 4) || (m =? 6) || (m =? 9) || (m =? 11) then 30
  else 31.

(** [datetime.strptime(deadline, "%Y-%m-%d")] does not raise: the text has
    the three fields and they are a date of the calendar. *)
Definition valid_deadline (deadline : string) : bool :=
  match parse_date deadline with
  | Some (y, m, d) => (1 <=? y) && (d <=? days_in_month y m)
  | None => false
  end.

(** Option 1 of [main], lines 215-233, with the four lines typed. A date
    that does not parse sends the loop to its next turn before [add_task]
    is called. *)
Definition menu_add (self : TaskManager)
    (nombre prioridad dependencias deadline : string) : TaskManager :=
  let dependencias := parse_dependencies dependencias in
  let deadline := strip deadline in
  if bool_decide (deadline ≠ EmptyString) && negb (valid_deadline deadline) then self
  else (add_task self nombre (PyStr prioridad) dependencias (Some deadline)).2.

(** The loop of [main] on the lines typed, up to option 6 or the end of the
    input. Options 2, 4 and 5 only print. When the input ends inside an
    option, the [EOFError] is caught, and the next [input] ends the
    program. *)
Fixpoint main_loop (self : TaskManager) (inputs : list string) : TaskManager :=
  match inputs with
  | [] => self
  | opcion :: rest =>
      if bool_decide (opcion = "1") then
        match rest with
        | nombre :: prioridad :: dependencias :: deadline :: rest' =>
            main_loop (menu_add self nombre prioridad dependencias deadline) rest'
        | _ => self
        end
      else if bool_decide (opcion = "3") then
        match rest with
        | nombre :: rest' => main_loop (complete_task self nombre).2 rest'
        | [] => self
        end
      else if bool_decide (opcion = "6") then self
      else main_loop self rest
  end.

(** [main()] on the file [f]. *)
Definition main (f : file) (inputs : list string) : TaskManager :=
  main_loop (TaskManager_init f) inputs.

(** A call as the menu makes it: the priority is a string, the
    dependencies come from a typed line, the deadline is empty or a date. *)
Definition menu_op (o : op) : Prop :=
  match o with
  | Add _ p deps dl =>
      (∃ s, p = PyStr s) ∧ (∃ line, deps = parse_dependencies line)
      ∧ ∃ d, dl = Some d ∧ (d = EmptyString ∨ valid_deadline d = true)
  | Complete _ => True
  | Restart => False
  end.

(** The file after the program has been started and ended once for every
    list of typed lines, beginning without a file. *)
Definition sessions (typed : list (list string)) : file :=
  foldl (λ f inputs, disk (main f inputs)) Missing typed.

(** A call of the menu, or the start of the program on the file the last
    session left. *)
Definition session_op (o : op) : Prop := menu_op o ∨ o = Restart.

(** A task as the menu can have made it. *)
Definition typed_task (t : task) : Prop :=
  Forall (λ dep, contains ","%char dep = false ∧ whitespace_only dep = false
                 ∧ strip dep = dep) (dependencies t)
  ∧ ∃ d, deadline t = Some d ∧ (d = EmptyString ∨ valid_deadline d = true).







(** * Properties *)

(** ** What [save_tasks] leaves in the file *)

Section saving.
Implicit Types (self : TaskManager).

Lemma int_repr_limit_eq : int_repr_limit = (10 ^ 4300)%Z.
Proof. vm_compute. reflexivity. Qed.

Lemma dumps_storable self :
  dumps (mkSnapshot (entry_task <$> tasks self) (elements (completed_tasks self))
                    (task_dependencies self)) = true
  ↔ storable self.
Proof.
  unfold dumps, storable. simpl. rewrite forallb_forall, Forall_forall. split.
  - intros Hall x Hx. apply Hall, list_elem_of_In. by apply list_elem_of_fmap_2.
  - intros Hall t (x & -> & Hx)%list_elem_of_In%list_elem_of_fmap. by apply Hall.
Qed.

Lemma save_tasks_storable self :
  storable self →
  save_tasks self
  = mkTaskManager (tasks self) (completed_tasks self) (task_dependencies self)
      (counter self)
      (Stored (mkSnapshot (entry_task <$> tasks self) (elements (completed_tasks self))
                          (task_dependencies self))).
Proof.
  intros Hs%dumps_storable. unfold save_tasks. cbv zeta. by rewrite Hs.
Qed.

Lemma save_tasks_not_storable self :
  ¬ storable self →
  save_tasks self
  = mkTaskManager (tasks self) (completed_tasks self) (task_dependencies self)
      (counter self) Corrupt.
Proof.
  intros Hs. unfold save_tasks. cbv zeta.
  destruct (dumps _) eqn:Hd; [|done]. by apply dumps_storable in Hd.
Qed.

Lemma synced_disk self :
  save_tasks self = self → storable self →
  disk self = Stored (mkSnapshot (entry_task <$> tasks self)
                                 (elements (completed_tasks self))
                                 (task_dependencies self)).
Proof. intros <- Hs. by rewrite save_tasks_storable. Qed.

Lemma synced_disk_corrupt self :
  save_tasks self = self → ¬ storable self → disk self = Corrupt.
Proof. intros <- Hs. by rewrite save_tasks_not_storable. Qed.

Lemma save_tasks_idemp self : save_tasks (save_tasks self) = save_tasks self.
Proof. done. Qed.

Lemma storable_nil c i n f : storable (mkTaskManager [] c i n f).
Proof. constructor. Qed.

Lemma empty_start f c :
  f = Missing ∨ f = Corrupt →
  load_tasks (mkTaskManager [] ∅ ∅ c f) = mkTaskManager [] ∅ ∅ c (Stored empty_snapshot).
Proof. by intros [->| ->]. Qed.

(** A restart of an object whose file is up to date: the stored list comes
    back renumbered, or, when the snapshot could not be written, nothing
    comes back. *)
Lemma restart_cases self :
  save_tasks self = self →
  (storable self
   ∧ step self Restart
     = mkTaskManager (imap (λ index t, (priority t, index, t)) (entry_task <$> tasks self))
                     (list_to_set (elements (completed_tasks self)))
                     (task_dependencies self)
                     (length (imap (λ index t, (priority t, index, t))
                                   (entry_task <$> tasks self)))
                     (disk self))
  ∨ (¬ storable self
     ∧ step self Restart = mkTaskManager [] ∅ ∅ 0 (Stored empty_snapshot)).
Proof.
  intros Hsync. destruct (decide (storable self)) as [Hs|Hs]; [left|right];
    (split; [done|]); simpl; rewrite <- Hsync at 1.
  - by rewrite save_tasks_storable, <- Hsync, save_tasks_storable.
  - by rewrite save_tasks_not_storable.
Qed.
End saving.

(** ** The stable sort behind the listing *)

Section sorting.
Implicit Types (x y : entry) (l : list entry).

Lemma insert_by_priority_perm x l : insert_by_priority x l ≡ₚ x :: l.
Proof.
  induction l as [|y l IH]; simpl; [done|].
  destruct (entry_priority x <=? entry_priority y)%Z; [done|].
  rewrite IH. apply Permutation_swap.
Qed.

Lemma sorted_by_priority_perm l : sorted_by_priority l ≡ₚ l.
Proof.
  induction l as [|x l IH]; simpl; [done|].
  by rewrite insert_by_priority_perm, IH.
Qed.

Lemma insert_by_priority_sorted x l :
  StronglySorted priority_le l →
  StronglySorted priority_le (insert_by_priority x l).
Proof.
  induction 1 as [|y l Hs IH Hall]; simpl.
  - repeat constructor.
  - destruct (entry_priority x <=? entry_priority y)%Z eqn:Hxy.
    + apply Z.leb_le in Hxy. constructor; [by constructor|].
      constructor; [done|].
      eapply Forall_impl; [exact Hall|].
      unfold priority_le in *. intros z ?. lia.
    + apply Z.leb_gt in Hxy. constructor; [done|].
      rewrite insert_by_priority_perm. constructor; [|done].
      unfold priority_le. lia.
Qed.

Lemma sorted_by_priority_sorted l :
  StronglySorted priority_le (sorted_by_priority l).
Proof.
  induction l; simpl; [constructor|by apply insert_by_priority_sorted].
Qed.

(** Stability: inserting [x] puts it in front of the entries of its own
    priority and leaves the other classes alone. *)
Lemma insert_by_priority_filter (p : Z) x l :
  StronglySorted priority_le l →
  filter (λ y, entry_priority y = p) (insert_by_priority x l)
  = filter (λ y, entry_priority y = p) (x :: l).
Proof.
  induction 1 as [|y l Hs IH Hall]; simpl; [done|].
  destruct (entry_priority x <=? entry_priority y)%Z eqn:Hxy; [done|].
  apply Z.leb_gt in Hxy.
  rewrite (filter_cons _ y), IH, !filter_cons.
  repeat case_decide; try done; lia.
Qed.

Lemma sorted_by_priority_stable (p : Z) l :
  filter (λ y, entry_priority y = p) (sorted_by_priority l)
  = filter (λ y, entry_priority y = p) l.
Proof.
  induction l as [|x l IH]; simpl; [done|].
  rewrite insert_by_priority_filter by apply sorted_by_priority_sorted.
  by rewrite !filter_cons, IH.
Qed.
End sorting.

(** ** Lists updated in place *)

Section list_updates.
Context {A : Type}.
Implicit Types (l : list A) (a b : A) (i j : nat).

Lemma insert_cons_perm l j a b :
  l !! j = Some b → b :: <[j := a]> l ≡ₚ a :: l.
Proof.
  revert j. induction l as [|x l IH]; intros [|j] Hj; simplify_eq/=.
  - apply Permutation_swap.
  - rewrite (Permutation_swap x b), (IH _ Hj). apply Permutation_swap.
Qed.

(** Writing [b], read at [j], into slot [i] and then [a] into slot [j]
    moves the two values around without losing any. *)
Lemma insert_swap_perm l i j a b :
  i ≠ j → i < length l → l !! j = Some b →
  <[j := a]> (<[i := b]> l) ≡ₚ <[i := a]> l.
Proof.
  revert i j. induction l as [|x l IH]; intros [|i] [|j] Hij Hi Hj;
    simplify_eq/=; try lia.
  - by apply insert_cons_perm.
  - destruct (lookup_lt_is_Some_2 l i) as [c Hc]; [lia|].
    apply (Permutation_cons_inv (a := c)).
    rewrite (Permutation_swap a c), (insert_cons_perm _ _ _ _ Hc).
    rewrite (Permutation_swap b c), (insert_cons_perm _ _ _ _ Hc).
    apply Permutation_swap.
  - f_equiv. apply IH; [congruence|lia|done].
Qed.

Lemma elem_of_insert_inv l i a x :
  x ∈ <[i := a]> l → x = a ∨ x ∈ l.
Proof.
  intros [k Hk]%list_elem_of_lookup.
  destruct (decide (i = k)) as [->|Hne].
  - destruct (decide (k < length l)).
    + rewrite list_lookup_insert_eq in Hk by done. left. congruence.
    + rewrite list_insert_ge in Hk by lia. right. by eapply list_elem_of_lookup_2.
  - rewrite list_lookup_insert_ne in Hk by done.
    right. by eapply list_elem_of_lookup_2.
Qed.
End list_updates.

(** ** heapq keeps the elements and does not raise on comparable entries *)

Section heap.
Implicit Types (heap : list entry) (newitem item : entry).

Lemma parentpos_lt pos : 0 < pos → Nat.shiftr (pos - 1) 1 < pos.
Proof.
  intros Hpos. rewrite Nat.shiftr_div_pow2. change (2 ^ 1) with 2.
  apply Nat.Div0.div_lt_upper_bound. lia.
Qed.

(** More fuel than the position changes nothing: the branch for no fuel is
    only reached when the loop is over. *)
Lemma siftdown_loop_fuel fuel fuel' heap newitem startpos pos :
  pos ≤ fuel → pos ≤ fuel' →
  siftdown_loop fuel heap newitem startpos pos
  = siftdown_loop fuel' heap newitem startpos pos.
Proof.
  revert fuel' heap pos.
  induction fuel as [|fuel IH]; intros [|fuel'] heap pos Hf Hf';
    cbn [siftdown_loop]; try done.
  - assert (pos = 0) as -> by lia. by case_decide; [lia|].
  - assert (pos = 0) as -> by lia. by case_decide; [lia|].
  - case_decide as Hlt; [|done].
    pose proof (parentpos_lt pos ltac:(lia)).
    destruct (heap !! _); [|done]. destruct (entry_lt _ _) as [[|]|]; try done.
    apply IH; lia.
Qed.

Lemma siftup_loop_fuel fuel fuel' heap newitem startpos endpos pos :
  endpos - pos ≤ fuel → endpos - pos ≤ fuel' →
  siftup_loop fuel heap newitem startpos endpos pos
  = siftup_loop fuel' heap newitem startpos endpos pos.
Proof.
  revert fuel' heap pos.
  induction fuel as [|fuel IH]; intros [|fuel'] heap pos Hf Hf';
    cbn [siftup_loop]; try done.
  - by case_decide; [lia|].
  - by case_decide; [lia|].
  - case_decide as Hlt; [|done].
    destruct (right_is_smaller _ _ _) as [[|]|]; [| |done];
      (destruct (heap !! _); [|done]); apply IH; lia.
Qed.

Lemma comparable_perm heap heap' :
  heap ≡ₚ heap' → comparable heap → comparable heap'.
Proof.
  intros Hp Hc a b Ha Hb. apply Hc; by rewrite Hp.
Qed.

Lemma comparable_subseteq heap heap' :
  heap' ⊆ heap → comparable heap → comparable heap'.
Proof. intros Hsub Hc a b Ha Hb. apply Hc; by apply Hsub. Qed.

Lemma insert_subseteq heap pos x :
  x ∈ heap → <[pos := x]> heap ⊆ heap.
Proof.
  intros Hx y Hy. by destruct (elem_of_insert_inv _ _ _ _ Hy) as [->|?].
Qed.

Lemma siftdown_loop_ok fuel heap newitem startpos pos :
  pos < length heap →
  (∀ x, x ∈ heap → is_Some (entry_lt newitem x)) →
  ∃ heap', siftdown_loop fuel heap newitem startpos pos = HeapOk heap'
           ∧ heap' ≡ₚ <[pos := newitem]> heap.
Proof.
  revert heap pos. induction fuel as [|fuel IH]; intros heap pos Hpos Hcmp;
    cbn [siftdown_loop].
  { by eexists. }
  case_decide as Hlt; [|by eexists].
  pose proof (parentpos_lt pos ltac:(lia)) as Hparent.
  destruct (lookup_lt_is_Some_2 heap (Nat.shiftr (pos - 1) 1)) as [parent Hp];
    [lia|].
  rewrite Hp.
  destruct (Hcmp parent) as [[|] ->]; [by eapply list_elem_of_lookup_2| |by eexists].
  destruct (IH (<[pos := parent]> heap) (Nat.shiftr (pos - 1) 1))
    as (heap' & -> & Hperm).
  - rewrite length_insert. lia.
  - intros x Hx. apply Hcmp. eapply insert_subseteq; [|done].
    by eapply list_elem_of_lookup_2.
  - eexists; split; [done|]. rewrite Hperm.
    apply insert_swap_perm; [lia|done|done].
Qed.

Lemma _siftdown_ok heap startpos pos :
  pos < length heap → comparable heap →
  ∃ heap', _siftdown heap startpos pos = HeapOk heap' ∧ heap' ≡ₚ heap.
Proof.
  intros Hpos Hcmp. unfold _siftdown.
  destruct (lookup_lt_is_Some_2 heap pos Hpos) as [newitem Hn]. rewrite Hn.
  destruct (siftdown_loop_ok pos heap newitem startpos pos Hpos)
    as (heap' & -> & Hperm).
  - intros x Hx. apply Hcmp; [by eapply list_elem_of_lookup_2|done].
  - eexists; split; [done|]. by rewrite Hperm, list_insert_id.
Qed.

Lemma right_is_smaller_ok heap childpos :
  childpos < length heap → comparable heap →
  ∃ b, right_is_smaller heap (length heap) childpos = Return b.
Proof.
  intros Hc Hcmp. unfold right_is_smaller. case_decide as Hr; [|by eexists].
  destruct (lookup_lt_is_Some_2 heap childpos Hc) as [c Hlc].
  destruct (lookup_lt_is_Some_2 heap (childpos + 1) Hr) as [r Hlr].
  rewrite Hlc, Hlr.
  destruct (Hcmp c r) as [b ->]; [by eapply list_elem_of_lookup_2..|].
  by eexists.
Qed.

Lemma siftup_loop_ok fuel heap newitem startpos pos :
  pos < length heap → comparable (newitem :: heap) →
  ∃ heap', siftup_loop fuel heap newitem startpos (length heap) pos = HeapOk heap'
           ∧ heap' ≡ₚ <[pos := newitem]> heap.
Proof.
  assert (Hfinish : ∀ heap pos, pos < length heap → comparable (newitem :: heap) →
    ∃ heap', _siftdown (<[pos := newitem]> heap) startpos pos = HeapOk heap'
             ∧ heap' ≡ₚ <[pos := newitem]> heap).
  { intros h p Hp Hcmp. apply _siftdown_ok; [by rewrite length_insert|].
    eapply comparable_subseteq; [|exact Hcmp].
    intros x [->|Hx]%elem_of_insert_inv; set_solver. }
  revert heap pos. induction fuel as [|fuel IH]; intros heap pos Hpos Hcmp;
    cbn [siftup_loop]; [by apply Hfinish|].
  case_decide as Hchild; [|by apply Hfinish].
  assert (comparable heap) as Hcmp'
    by (eapply comparable_subseteq; [|exact Hcmp]; set_solver).
  destruct (right_is_smaller_ok heap (2 * pos + 1) Hchild Hcmp') as [b Hb].
  rewrite Hb.
  assert (∃ childpos, childpos = (if b then 2 * pos + 1 + 1 else 2 * pos + 1)
                      ∧ childpos < length heap ∧ pos ≠ childpos)
    as (childpos & <- & Hlt & Hne).
  { eexists; split; [done|]. destruct b; [|lia].
    unfold right_is_smaller in Hb. case_decide; [lia|done]. }
  destruct (lookup_lt_is_Some_2 heap childpos Hlt) as [child Hl]. rewrite Hl.
  assert (child ∈ heap) by by eapply list_elem_of_lookup_2.
  destruct (IH (<[pos := child]> heap) childpos) as (heap' & Heq & Hperm).
  - by rewrite length_insert.
  - eapply comparable_subseteq; [|exact Hcmp].
    intros x [->|Hx]%elem_of_cons; [set_solver|].
    apply elem_of_cons; right. by eapply insert_subseteq.
  - rewrite length_insert in Heq. rewrite Heq.
    eexists; split; [done|]. rewrite Hperm.
    by apply insert_swap_perm.
Qed.

Lemma _siftup_ok heap pos :
  pos < length heap → comparable heap →
  ∃ heap', _siftup heap pos = HeapOk heap' ∧ heap' ≡ₚ heap.
Proof.
  intros Hpos Hcmp. unfold _siftup.
  destruct (lookup_lt_is_Some_2 heap pos Hpos) as [newitem Hn]. rewrite Hn.
  destruct (siftup_loop_ok (length heap) heap newitem pos pos Hpos)
    as (heap' & -> & Hperm).
  - eapply comparable_subseteq; [|exact Hcmp].
    intros x [->|Hx]%elem_of_cons; [by eapply list_elem_of_lookup_2|done].
  - eexists; split; [done|]. by rewrite Hperm, list_insert_id.
Qed.

Lemma heapify_loop_ok x idx heap0 :
  comparable x → heap0 ≡ₚ x → Forall (λ i, i < length x) idx →
  ∃ heap,
    foldl (λ acc i, match acc with
                    | HeapOk heap => _siftup heap i
                    | HeapRaise e heap => HeapRaise e heap
                    end) (HeapOk heap0) idx = HeapOk heap
    ∧ heap ≡ₚ x.
Proof.
  intros Hcmp. revert heap0.
  induction idx as [|i idx IH]; intros heap0 Hp Hidx; simpl.
  { by eexists. }
  apply Forall_cons in Hidx as [Hi Hidx].
  destruct (_siftup_ok heap0 i) as (heap1 & -> & Hp1).
  - by rewrite Hp.
  - by eapply comparable_perm.
  - apply IH; [by rewrite Hp1|done].
Qed.

Lemma heapify_ok x :
  comparable x → ∃ heap, heapify x = HeapOk heap ∧ heap ≡ₚ x.
Proof.
  intros Hcmp. apply heapify_loop_ok; [done..|].
  apply Forall_forall. intros i [_ Hi]%elem_of_reverse%elem_of_seq.
  pose proof (Nat.Div0.div_le_upper_bound (length x) 2 (length x)). lia.
Qed.

Lemma heappush_ok heap item :
  comparable (heap ++ [item]) →
  ∃ heap', heappush heap item = HeapOk heap' ∧ heap' ≡ₚ item :: heap.
Proof.
  intros Hcmp. unfold heappush.
  destruct (_siftdown_ok (heap ++ [item]) 0 (length (heap ++ [item]) - 1))
    as (heap' & -> & Hperm); [rewrite length_app; simpl; lia|done|].
  eexists; split; [done|]. by rewrite Hperm, Permutation_app_comm.
Qed.

Lemma same_counter_same_entry heap a b :
  NoDup (entry_counter <$> heap) → a ∈ heap → b ∈ heap →
  entry_counter a = entry_counter b → a = b.
Proof.
  induction heap as [|x heap IH]; simpl; [by intros _ ?%elem_of_nil|].
  intros [Hx Hnd]%NoDup_cons [->|Ha]%elem_of_cons [->|Hb]%elem_of_cons Heq;
    [done| | |by apply IH].
  - destruct Hx. rewrite Heq. by apply list_elem_of_fmap_2.
  - destruct Hx. rewrite <- Heq. by apply list_elem_of_fmap_2.
Qed.

Lemma NoDup_comparable heap :
  NoDup (entry_counter <$> heap) → comparable heap.
Proof.
  intros Hnd a b Ha Hb.
  pose proof (same_counter_same_entry heap a b Hnd Ha Hb) as Heq.
  destruct a as [[pa ca] ta], b as [[pb cb] tb]. unfold entry_lt.
  repeat case_decide; try by eexists.
  subst. by specialize (Heq eq_refl); simplify_eq.
Qed.
End heap.

(** ** Names and priorities *)

Section validation.
Lemma lstrip_whitespace_only s :
  whitespace_only s = true → lstrip is_space s = EmptyString.
Proof.
  induction s as [|c s IH]; simpl; [done|].
  intros [-> ?]%andb_true_iff. auto.
Qed.

Lemma lstrip_not_whitespace_only s :
  whitespace_only s = false →
  ∃ c s', lstrip is_space s = String c s' ∧ is_space c = false.
Proof.
  induction s as [|c s IH]; simpl; [done|].
  destruct (is_space c) eqn:Hc; simpl; [done|]. intros _. by exists c, s.
Qed.

Lemma rstrip_keeps_head sp c s :
  sp c = false → rstrip sp (String c s) ≠ EmptyString.
Proof. intros Hc. simpl. rewrite Hc. by destruct (rstrip sp s). Qed.

(** [name.strip() == ''] holds exactly for the names made of blanks. *)
Lemma strip_empty_iff s :
  strip s = EmptyString ↔ whitespace_only s = true.
Proof.
  unfold strip. split.
  - intros Hs. destruct (whitespace_only s) eqn:Hw; [done|].
    destruct (lstrip_not_whitespace_only s Hw) as (c & s' & Hl & Hc).
    rewrite Hl in Hs. by apply rstrip_keeps_head in Hs.
  - intros Hw. by rewrite lstrip_whitespace_only.
Qed.

Lemma name_check_true n :
  whitespace_only n = true →
  bool_decide (n = EmptyString) || bool_decide (strip n = EmptyString) = true.
Proof.
  intros Hw. apply orb_true_iff. right.
  apply bool_decide_eq_true. by apply strip_empty_iff.
Qed.

Lemma name_check_false n :
  whitespace_only n = false →
  bool_decide (n = EmptyString) || bool_decide (strip n = EmptyString) = false.
Proof.
  intros Hw. apply orb_false_iff. split; apply bool_decide_eq_false.
  - intros ->. done.
  - rewrite strip_empty_iff. congruence.
Qed.
End validation.

(** ** add_task, case by case *)

Section add_task_cases.
Context (self : TaskManager) (n : string) (p : pyval) (deps : list string)
        (dl : option string).

Lemma add_task_blank_name :
  whitespace_only n = true →
  add_task self n p deps dl = (Raise InvalidName, self).
Proof. intros Hw. unfold add_task. by rewrite name_check_true. Qed.

Lemma add_task_bad_priority :
  whitespace_only n = false → py_int p = Raise ValueError →
  add_task self n p deps dl = (Raise InvalidPriority, self).
Proof.
  intros Hw Hp. unfold add_task. by rewrite name_check_false, Hp.
Qed.

Lemma add_task_unknown z :
  whitespace_only n = false → py_int p = Return z →
  filter (unknown self) deps ≠ [] →
  add_task self n p deps dl
  = (Raise (UnknownDependency (filter (unknown self) deps)), self).
Proof.
  intros Hw Hp Hne. unfold add_task. rewrite name_check_false, Hp by done.
  fold (unknown self). by destruct (filter (unknown self) deps).
Qed.

(** Whatever else is wrong with the call, an unknown dependency makes it
    fail and leaves the object as it was. *)
Lemma add_task_unknown_fails :
  filter (unknown self) deps ≠ [] →
  ∃ e, add_task self n p deps dl = (Raise e, self).
Proof.
  intros Hne. destruct (whitespace_only n) eqn:Hw.
  { eexists. by apply add_task_blank_name. }
  unfold add_task. rewrite name_check_false by done.
  destruct (py_int p) as [z|e].
  - fold (unknown self). destruct (filter (unknown self) deps); [done|by eexists].
  - destruct e; by eexists.
Qed.

Lemma add_task_pushes z :
  whitespace_only n = false → py_int p = Return z →
  filter (unknown self) deps = [] →
  add_task self n p deps dl
  = match heappush (tasks self) (z, counter self + 1, mkTask n z deps dl) with
    | HeapRaise e heap =>
        (Raise e, mkTaskManager heap (completed_tasks self)
                    (task_dependencies self) (counter self + 1) (disk self))
    | HeapOk heap => (Return (mkTask n z deps dl), after_add self heap n deps)
    end.
Proof.
  intros Hw Hp Hnil. unfold add_task. rewrite name_check_false, Hp by done.
  fold (unknown self). by rewrite Hnil.
Qed.

(** A successful add went through every check and pushed one entry. *)
Lemma add_task_Return_inv t self' :
  add_task self n p deps dl = (Return t, self') →
  ∃ z heap,
    whitespace_only n = false ∧ py_int p = Return z
    ∧ filter (unknown self) deps = []
    ∧ heappush (tasks self) (z, counter self + 1, mkTask n z deps dl) = HeapOk heap
    ∧ t = mkTask n z deps dl ∧ self' = after_add self heap n deps.
Proof.
  intros Hadd. destruct (whitespace_only n) eqn:Hw.
  { by rewrite add_task_blank_name in Hadd. }
  destruct (py_int p) as [z|e] eqn:Hp; cycle 1.
  { unfold add_task in Hadd. rewrite name_check_false, Hp in Hadd by done.
    by destruct e. }
  destruct (filter (unknown self) deps) as [|d ds] eqn:Hf; cycle 1.
  { rewrite (add_task_unknown z) in Hadd; [done..|]. by rewrite Hf. }
  rewrite (add_task_pushes z) in Hadd by done.
  destruct (heappush _ _) as [heap|e heap] eqn:Hpush; [|done].
  simplify_eq. by exists z, heap.
Qed.
End add_task_cases.

(** ** The executability test *)

Section executability.
Context (self : TaskManager) (t : task).

Lemma is_task_executable_pending :
  (is_task_executable self t).2
  = filter (λ dep, dep ∉ completed_tasks self) (dependencies t).
Proof. unfold is_task_executable. by destruct (dependencies t). Qed.

Lemma is_task_executable_flag :
  (is_task_executable self t).1 = true ↔ (is_task_executable self t).2 = [].
Proof.
  unfold is_task_executable. destruct (dependencies t) as [|d ds]; simpl; [done|].
  rewrite Nat.eqb_eq. apply length_zero_iff_nil.
Qed.

Lemma filter_nil_iff {A} (P : A → Prop) `{!∀ x, Decision (P x)} (l : list A) :
  filter P l = [] ↔ ∀ x, x ∈ l → ¬ P x.
Proof.
  split.
  - intros Hnil x Hx HP. by eapply filter_nil_not_elem_of.
  - intros Hall. induction l as [|x l IH]; [done|].
    rewrite filter_cons_False by (apply Hall; left).
    apply IH. intros y Hy. apply Hall. by right.
Qed.
End executability.

(** ** Well-formed objects *)

Section well_formed.
Implicit Types (self : TaskManager) (heap : list entry).

Lemma well_formed_comparable self : well_formed self → comparable (tasks self).
Proof. intros [Hnd _]. by apply NoDup_comparable. Qed.

Lemma well_formed_push_comparable self z t :
  well_formed self → comparable (tasks self ++ [(z, counter self + 1, t)]).
Proof.
  intros [Hnd Hle]. apply NoDup_comparable. rewrite fmap_app. apply NoDup_app.
  split_and!; [done| |apply NoDup_singleton].
  intros c (x & -> & Hx)%list_elem_of_fmap Heq%list_elem_of_singleton.
  rewrite Forall_forall in Hle. specialize (Hle x Hx).
  unfold entry_counter in *. simpl in *. lia.
Qed.

Lemma well_formed_after_add self heap z t n deps :
  well_formed self → heap ≡ₚ (z, counter self + 1, t) :: tasks self →
  well_formed (after_add self heap n deps).
Proof.
  intros [Hnd Hle] Hperm. unfold well_formed, after_add. simpl.
  rewrite Hperm. split.
  - rewrite fmap_cons. apply NoDup_cons. split; [|done].
    intros (x & Hc & Hx)%list_elem_of_fmap.
    rewrite Forall_forall in Hle. specialize (Hle x Hx).
    unfold entry_counter in *. simpl in *. lia.
  - constructor; [unfold entry_counter; simpl; lia|].
    eapply Forall_impl; [exact Hle|]. simpl. intros; lia.
Qed.

Lemma well_formed_after_complete self heap index n :
  well_formed self → heap ≡ₚ delete index (tasks self) →
  well_formed (after_complete self heap n).
Proof.
  intros [Hnd Hle] Hperm. unfold well_formed, after_complete. simpl.
  rewrite Hperm. split.
  - rewrite list_fmap_delete.
    apply (sublist_NoDup _ (entry_counter <$> tasks self)); [done|].
    apply sublist_delete.
  - by apply Forall_delete.
Qed.

(** With the counters in order the push cannot raise. *)
Lemma add_task_ok self n p deps dl z :
  well_formed self → whitespace_only n = false → py_int p = Return z →
  filter (unknown self) deps = [] →
  ∃ heap,
    add_task self n p deps dl = (Return (mkTask n z deps dl), after_add self heap n deps)
    ∧ heap ≡ₚ (z, counter self + 1, mkTask n z deps dl) :: tasks self.
Proof.
  intros Hwf Hw Hp Hnil. rewrite (add_task_pushes _ _ _ _ _ z) by done.
  destruct (heappush_ok (tasks self) (z, counter self + 1, mkTask n z deps dl))
    as (heap & -> & Hperm); [by apply well_formed_push_comparable|].
  by exists heap.
Qed.

Lemma add_task_well_formed self n p deps dl :
  well_formed self → well_formed (add_task self n p deps dl).2.
Proof.
  intros Hwf. destruct (whitespace_only n) eqn:Hw.
  { by rewrite add_task_blank_name. }
  destruct (py_int p) as [z|e] eqn:Hp; cycle 1.
  { unfold add_task. rewrite name_check_false, Hp by done. by destruct e. }
  destruct (filter (unknown self) deps) as [|d ds] eqn:Hf; cycle 1.
  { rewrite (add_task_unknown _ _ _ _ _ z); [done..|]. by rewrite Hf. }
  destruct (add_task_ok self n p deps dl z) as (heap & -> & Hperm); [done..|].
  by eapply well_formed_after_add.
Qed.
End well_formed.

(** ** complete_task, case by case *)

Section complete_task_cases.
Context (self : TaskManager) (A : string).

Local Abbreviation not_completed := (λ dep : string, dep ∉ completed_tasks self).

Lemma blocked_dependents :
  match task_dependencies self !! A with
  | Some dependientes => filter not_completed dependientes
  | None => []
  end = filter not_completed (dependents_of self A).
Proof. unfold dependents_of. by destruct (task_dependencies self !! A). Qed.

Lemma complete_task_not_found :
  list_find (λ x : entry, name (entry_task x) = A) (tasks self) = None →
  complete_task self A = (Return NotFound, self).
Proof. intros Hf. unfold complete_task. by rewrite Hf. Qed.

Lemma complete_task_found index x :
  list_find (λ x : entry, name (entry_task x) = A) (tasks self) = Some (index, x) →
  complete_task self A
  = match filter not_completed (dependencies (entry_task x)) with
    | (_ :: _) as pending => (Return (UnmetDependencies pending), self)
    | [] =>
        match filter not_completed (dependents_of self A) with
        | (_ :: _) as blocked => (Return (BlockedByDependents blocked), self)
        | [] =>
            match heapify (delete index (tasks self)) with
            | HeapRaise e heap =>
                (Raise e, mkTaskManager heap (completed_tasks self)
                            (task_dependencies self) (counter self) (disk self))
            | HeapOk heap => (Return Completed, after_complete self heap A)
            end
        end
    end.
Proof.
  intros Hf. unfold complete_task. rewrite Hf.
  pose proof (is_task_executable_pending self (entry_task x)) as Hp.
  destruct (is_task_executable self (entry_task x)) as [b pending].
  simpl in Hp. subst pending. rewrite blocked_dependents.
  destruct (filter _ (dependencies _)); [|done].
  by destruct (filter _ (dependents_of _ _)).
Qed.

Lemma complete_task_well_formed :
  well_formed self → well_formed (complete_task self A).2.
Proof.
  intros Hwf.
  destruct (list_find (λ x : entry, name (entry_task x) = A) (tasks self))
    as [[index x]|] eqn:Hf; [|by rewrite complete_task_not_found].
  rewrite (complete_task_found index x Hf).
  destruct (filter _ (dependencies _)); [|done].
  destruct (filter _ (dependents_of _ _)); [|done].
  destruct (heapify_ok (delete index (tasks self))) as (heap & -> & Hperm).
  - eapply comparable_subseteq; [apply list_subseteq_delete|].
    by apply well_formed_comparable.
  - by eapply well_formed_after_complete.
Qed.
End complete_task_cases.

(** ** Loading, and every reachable object is well formed *)

Section reachable.
Lemma loaded_counters (l : list task) :
  entry_counter <$> imap (λ index t, (priority t, index, t)) l = seq 0 (length l).
Proof.
  rewrite fmap_imap.
  rewrite (imap_ext _ (λ j _, j)) by done.
  by rewrite (imap_seq_0 l (λ j, j)), list_fmap_id.
Qed.

Lemma loaded_tasks (l : list task) :
  entry_task <$> imap (λ index t, (priority t, index, t)) l = l.
Proof.
  rewrite fmap_imap.
  rewrite (imap_ext _ (const (λ t, t))) by done.
  by rewrite imap_const, list_fmap_id.
Qed.

(** When the file holds the snapshot of the object, a restart brings back
    the same task dicts in the same order, the same completed set and the
    same index. *)
Lemma restart_synced self :
  save_tasks self = self → storable self →
  entry_task <$> tasks (step self Restart) = entry_task <$> tasks self
  ∧ entry_priority <$> tasks (step self Restart) = priority ∘ entry_task <$> tasks self
  ∧ completed_tasks (step self Restart) = completed_tasks self
  ∧ task_dependencies (step self Restart) = task_dependencies self
  ∧ disk (step self Restart) = disk self
  ∧ save_tasks (step self Restart) = step self Restart.
Proof.
  intros Hsync Hs.
  destruct (restart_cases self Hsync) as [[_ ->]|[Hn _]]; [|done]. simpl.
  split_and!; try done.
  - apply loaded_tasks.
  - rewrite fmap_imap.
    rewrite (imap_ext _ (const priority)) by done.
    by rewrite imap_const, <- list_fmap_compose.
  - apply list_to_set_elements_L.
  - rewrite save_tasks_storable; simpl.
    + rewrite (synced_disk self Hsync Hs).
      by rewrite loaded_tasks, list_to_set_elements_L.
    + unfold storable in *. simpl. rewrite Forall_forall in Hs |- *.
      intros y [i Hy]%list_elem_of_lookup.
      rewrite list_lookup_imap, list_lookup_fmap in Hy.
      destruct (tasks self !! i) as [x|] eqn:Hx; simplify_eq/=.
      apply Hs. by eapply list_elem_of_lookup_2.
Qed.

(** When the last save failed, a restart finds a file that is not valid
    JSON and begins with nothing. *)
Lemma restart_lossy self :
  save_tasks self = self → ¬ storable self →
  step self Restart = mkTaskManager [] ∅ ∅ 0 (Stored empty_snapshot).
Proof.
  intros Hsync Hs. by destruct (restart_cases self Hsync) as [[? _]|[_ ->]].
Qed.

Lemma restart_keeps_sync self :
  save_tasks self = self → save_tasks (step self Restart) = step self Restart.
Proof.
  intros Hsync. destruct (decide (storable self)) as [Hs|Hs].
  - by apply restart_synced.
  - by rewrite restart_lossy.
Qed.

Lemma TaskManager_init_well_formed f : well_formed (TaskManager_init f).
Proof.
  unfold TaskManager_init, load_tasks, well_formed.
  destruct f as [| |data]; simpl; [split; constructor..|].
  rewrite loaded_counters. split; [apply NoDup_seq|].
  apply Forall_forall. intros x Hx.
  assert (entry_counter x ∈ seq 0 (length (snap_tasks data))) as Hc.
  { rewrite <- loaded_counters. by apply list_elem_of_fmap_2. }
  apply elem_of_seq in Hc. rewrite length_imap. lia.
Qed.

Lemma step_well_formed self o : well_formed self → well_formed (step self o).
Proof.
  destruct o; simpl; intros Hwf.
  - by apply add_task_well_formed.
  - by apply complete_task_well_formed.
  - apply TaskManager_init_well_formed.
Qed.

Lemma run_well_formed self ops : well_formed self → well_formed (run self ops).
Proof.
  revert self. induction ops as [|o ops IH]; intros self Hwf; [done|].
  simpl. apply IH. by apply step_well_formed.
Qed.

Lemma reachable_well_formed self : reachable self → well_formed self.
Proof.
  intros (f & ops & ->). apply run_well_formed, TaskManager_init_well_formed.
Qed.
End reachable.

(** ** Stored priorities *)

Section priorities.
Lemma priorities_agree_perm l l' :
  l ≡ₚ l' → priorities_agree l → priorities_agree l'.
Proof. unfold priorities_agree. by intros ->. Qed.

Lemma step_priorities_agree self o :
  well_formed self → priorities_agree (tasks self) →
  priorities_agree (tasks (step self o)).
Proof.
  intros Hwf Hag. destruct o as [n p deps dl|A|]; simpl.
  - destruct (add_task self n p deps dl) as [[t|e] self'] eqn:Hadd; simpl.
    + destruct (add_task_Return_inv _ _ _ _ _ _ _ Hadd)
        as (z & heap & Hw & Hp & Hnil & _ & -> & ->).
      destruct (add_task_ok self n p deps dl z) as (heap' & Heq & Hperm); [done..|].
      rewrite Heq in Hadd. simplify_eq. simpl.
      eapply priorities_agree_perm; [symmetry; exact Hperm|].
      by constructor.
    + pose proof (add_task_well_formed self n p deps dl Hwf) as Hwf'.
      destruct (whitespace_only n) eqn:Hw.
      { rewrite add_task_blank_name in Hadd by done. by simplify_eq. }
      destruct (py_int p) as [z|e'] eqn:Hp; cycle 1.
      { unfold add_task in Hadd. rewrite name_check_false, Hp in Hadd by done.
        destruct e'; by simplify_eq. }
      destruct (filter (unknown self) deps) as [|d ds] eqn:Hf; cycle 1.
      { rewrite (add_task_unknown _ _ _ _ _ z) in Hadd; [by simplify_eq|done..|].
        by rewrite Hf. }
      destruct (add_task_ok self n p deps dl z) as (heap' & Heq & _); [done..|].
      by rewrite Heq in Hadd.
  - destruct (list_find (λ x : entry, name (entry_task x) = A) (tasks self))
      as [[index x]|] eqn:Hf; [|by rewrite complete_task_not_found].
    rewrite (complete_task_found _ _ index x Hf).
    destruct (filter _ (dependencies _)); [|done].
    destruct (filter _ (dependents_of _ _)); [|done].
    destruct (heapify_ok (delete index (tasks self))) as (heap & -> & Hperm).
    { eapply comparable_subseteq; [apply list_subseteq_delete|].
      by apply well_formed_comparable. }
    simpl. eapply priorities_agree_perm; [symmetry; exact Hperm|].
    by apply Forall_delete.
  - unfold TaskManager_init, load_tasks.
    destruct (disk self) as [| |data]; simpl; [constructor..|].
    apply Forall_forall. intros x [i Hx]%list_elem_of_lookup.
    rewrite list_lookup_imap in Hx.
    destruct (snap_tasks data !! i); by simplify_eq/=.
Qed.

Lemma reachable_priorities_agree self :
  reachable self → priorities_agree (tasks self).
Proof.
  intros (f & ops & ->).
  assert (well_formed (TaskManager_init f)
          ∧ priorities_agree (tasks (TaskManager_init f))) as Hinit.
  { split; [apply TaskManager_init_well_formed|].
    apply (step_priorities_agree (mkTaskManager [] ∅ ∅ 0 f) Restart);
      by repeat constructor. }
  revert Hinit. generalize (TaskManager_init f).
  induction ops as [|o ops IH]; intros self [Hwf Hag]; [done|].
  simpl. apply IH. split; [by apply step_well_formed|by apply step_priorities_agree].
Qed.

Lemma filter_priority_tasks (p : Z) l :
  priorities_agree l →
  filter (λ t, priority t = p) (entry_task <$> l)
  = entry_task <$> filter (λ x, entry_priority x = p) l.
Proof.
  induction 1 as [|x l Hx _ IH]; [done|].
  rewrite fmap_cons, !filter_cons, IH, <- Hx.
  by case_decide.
Qed.
End priorities.

(** ** The reverse dependency index *)

Section index.
Implicit Types (index : gmap string (list string)) (deps : list string).

Lemma record_edge_insert n index dep :
  record_edge n index dep = <[dep := default [] (index !! dep) ++ [n]]> index.
Proof.
  unfold record_edge. destruct (index !! dep) as [l|] eqn:Hl.
  - by rewrite Hl.
  - by rewrite lookup_insert_eq, insert_insert_eq.
Qed.

Lemma record_edge_lookup n index dep D :
  default [] (record_edge n index dep !! D)
  = default [] (index !! D) ++ (if decide (dep = D) then [n] else []).
Proof.
  rewrite record_edge_insert. case_decide as Heq.
  - subst. by rewrite lookup_insert_eq.
  - rewrite lookup_insert_ne by done. by rewrite app_nil_r.
Qed.

Lemma record_edges_lookup n index deps D :
  default [] (foldl (record_edge n) index deps !! D)
  = default [] (index !! D) ++ replicate (length (filter (λ d, d = D) deps)) n.
Proof.
  revert index. induction deps as [|d deps IH]; intros index; simpl.
  { by rewrite app_nil_r. }
  rewrite IH, record_edge_lookup, filter_cons, <- app_assoc.
  by case_decide.
Qed.

Lemma after_add_dependents self heap n deps D :
  dependents_of (after_add self heap n deps) D
  = dependents_of self D ++ replicate (length (filter (λ d, d = D) deps)) n.
Proof. apply record_edges_lookup. Qed.
End index.

(** ** Known and unknown dependencies *)

Lemma unknown_filter_elem self deps d :
  d ∈ deps → d ∉ names_of (tasks self) → d ∉ completed_tasks self →
  d ∈ filter (unknown self) deps ∧ filter (unknown self) deps ≠ [].
Proof.
  intros Hd Hn Hc.
  assert (d ∈ filter (unknown self) deps) as Hin
    by by apply list_elem_of_filter.
  split; [done|]. intros Hnil. rewrite Hnil in Hin. by apply elem_of_nil in Hin.
Qed.

Lemma all_known self deps :
  (∀ d, d ∈ deps → d ∈ names_of (tasks self) ∨ d ∈ completed_tasks self) →
  filter (unknown self) deps = [].
Proof.
  intros Hall. apply filter_nil_iff. intros d Hd [Hn Hc].
  destruct (Hall d Hd); contradiction.
Qed.

(** ** Pending names *)

Lemma pending_found self A :
  A ∈ names_of (tasks self) ↔
  ∃ index x, list_find (λ x : entry, name (entry_task x) = A) (tasks self)
             = Some (index, x).
Proof.
  split.
  - intros (x & HA & Hx)%list_elem_of_fmap.
    destruct (list_find_elem_of (λ x : entry, name (entry_task x) = A)
                (tasks self) x Hx) as [[index y] Hf]; [done|].
    by exists index, y.
  - intros (index & x & (Hl & Hn & _)%list_find_Some).
    apply list_elem_of_fmap. exists x. split; [done|].
    by eapply list_elem_of_lookup_2.
Qed.

(** ** The index knows every declared dependency *)

Section edges.
Lemma step_edges_recorded self o :
  well_formed self → edges_recorded self → edges_recorded (step self o).
Proof.
  intros Hwf [Hrec Hsync]. destruct o as [n p deps dl|A|]; simpl.
  - destruct (whitespace_only n) eqn:Hw.
    { by rewrite add_task_blank_name. }
    destruct (py_int p) as [z|e] eqn:Hp; cycle 1.
    { unfold add_task. rewrite name_check_false, Hp by done. by destruct e. }
    destruct (filter (unknown self) deps) as [|d ds] eqn:Hf; cycle 1.
    { rewrite (add_task_unknown _ _ _ _ _ z); [done..|]. by rewrite Hf. }
    destruct (add_task_ok self n p deps dl z) as (heap & Heq & Hperm); [done..|].
    rewrite Heq. simpl. split; [|done].
    intros x d Hx Hd. simpl in Hx. rewrite Hperm in Hx.
    pose proof (after_add_dependents self heap n deps d) as Hdep.
    rewrite Hdep. apply elem_of_app.
    apply elem_of_cons in Hx as [->|Hx]; [right|left; by apply Hrec].
    simpl in *. apply elem_of_replicate. split; [done|].
    assert (d ∈ filter (λ d', d' = d) deps) as Hin by by apply list_elem_of_filter.
    destruct (filter (λ d', d' = d) deps); [by apply elem_of_nil in Hin|done].
  - destruct (list_find (λ x : entry, name (entry_task x) = A) (tasks self))
      as [[index x]|] eqn:Hf; [|by rewrite complete_task_not_found].
    rewrite (complete_task_found _ _ index x Hf).
    destruct (filter _ (dependencies _)); [|done].
    destruct (filter _ (dependents_of _ _)); [|done].
    destruct (heapify_ok (delete index (tasks self))) as (heap & -> & Hperm).
    { eapply comparable_subseteq; [apply list_subseteq_delete|].
      by apply well_formed_comparable. }
    simpl. split; [|done]. intros y d Hy Hd. simpl in Hy. rewrite Hperm in Hy.
    apply (Hrec y d); [|done]. by eapply list_subseteq_delete.
  - split; [|by apply (restart_keeps_sync self)].
    destruct (restart_cases self Hsync) as [[_ Heq]|[_ Heq]];
      simpl in Heq; rewrite Heq; simpl.
    + intros y d [i Hy]%list_elem_of_lookup Hd.
      rewrite list_lookup_imap, list_lookup_fmap in Hy.
      destruct (tasks self !! i) as [x|] eqn:Hx; simplify_eq/=.
      apply (Hrec x d); [by eapply list_elem_of_lookup_2|done].
    + by intros y d Hy%elem_of_nil.
Qed.

Lemma fresh_run_edges_recorded ops :
  well_formed (run fresh ops) ∧ edges_recorded (run fresh ops).
Proof.
  assert (well_formed fresh ∧ edges_recorded fresh) as Hinit.
  { split; [apply TaskManager_init_well_formed|].
    split; [|done]. by intros x d Hx%elem_of_nil. }
  revert Hinit. generalize fresh.
  induction ops as [|o ops IH]; intros self [Hwf Hrec]; [done|].
  simpl. apply IH. split; [by apply step_well_formed|by apply step_edges_recorded].
Qed.
End edges.

(** ** The counter only grows between restarts *)

Section sequences.
Lemma add_task_counter self n p deps dl :
  counter self ≤ counter (add_task self n p deps dl).2.
Proof.
  destruct (whitespace_only n) eqn:Hw.
  { by rewrite add_task_blank_name. }
  destruct (py_int p) as [z|e] eqn:Hp; cycle 1.
  { unfold add_task. rewrite name_check_false, Hp by done. by destruct e. }
  destruct (filter (unknown self) deps) as [|d ds] eqn:Hf; cycle 1.
  { rewrite (add_task_unknown _ _ _ _ _ z); [done..|]. by rewrite Hf. }
  rewrite (add_task_pushes _ _ _ _ _ z) by done.
  destruct (heappush _ _); simpl; lia.
Qed.

Lemma complete_task_counter self A :
  counter (complete_task self A).2 = counter self.
Proof.
  destruct (list_find (λ x : entry, name (entry_task x) = A) (tasks self))
    as [[index x]|] eqn:Hf; [|by rewrite complete_task_not_found].
  rewrite (complete_task_found _ _ index x Hf).
  destruct (filter _ (dependencies _)); [|done].
  destruct (filter _ (dependents_of _ _)); [|done].
  by destruct (heapify _).
Qed.

Lemma step_counter self o : o ≠ Restart → counter self ≤ counter (step self o).
Proof.
  destruct o; simpl; intros Hne; [apply add_task_counter| |done].
  by rewrite complete_task_counter.
Qed.

Lemma add_task_Return_counter self n p deps dl t :
  (add_task self n p deps dl).1 = Return t →
  counter (add_task self n p deps dl).2 = counter self + 1.
Proof.
  destruct (add_task self n p deps dl) as [r self'] eqn:Hadd. simpl. intros ->.
  destruct (add_task_Return_inv _ _ _ _ _ _ _ Hadd)
    as (z & heap & _ & _ & _ & _ & _ & ->).
  done.
Qed.

(** Between two restarts the numbers handed out go up, all above the
    counter the run started from. *)
Lemma assigned_sequences_increasing self ops :
  Forall (λ o, o ≠ Restart) ops →
  StronglySorted lt (assigned_sequences self ops)
  ∧ Forall (λ c, counter self < c) (assigned_sequences self ops).
Proof.
  intros Hops. revert self.
  induction Hops as [|o ops Ho _ IH]; intros self; simpl.
  { split; constructor. }
  destruct (IH (step self o)) as [Hs Hall].
  pose proof (step_counter self o Ho) as Hmono.
  assert (Forall (λ c, counter self < c) (assigned_sequences (step self o) ops))
    as Hall' by (eapply Forall_impl; [exact Hall|]; simpl; intros; lia).
  destruct o as [n p deps dl|A|]; simpl; [|done..].
  destruct (add_task self n p deps dl).1 as [t|e] eqn:Hr; simpl; [|done].
  split.
  - constructor; [done|].
    eapply Forall_impl; [exact Hall|]. simpl.
    rewrite (add_task_Return_counter _ _ _ _ _ t Hr). intros; lia.
  - constructor; [lia|done].
Qed.
End sequences.

(** * The claims *)

(** Closes a decidable goal about concrete data by evaluating its decision
    procedure. *)
Ltac decide_by_computing :=
  apply (bool_decide_unpack _); vm_compute; exact I.

(** ** C1: completion is held back by the dependents *)

(** C1. Let A be pending, [x] being the first pending entry named A, with
    every dependency of its task completed. If some recorded dependent of A
    is not in the completed set, [complete_task] reports the dependents
    that are not completed, in recorded order, and returns the object as it
    was: pending list, completed set, index, counter and file. If every
    recorded dependent of A is completed, [complete_task] succeeds: the
    entry [x] leaves the pending list, whose other entries all stay, A
    joins the completed set, and the index is unchanged (on the objects the
    program can reach, whose counters are pairwise different). In a program
    started without a file every pending task that declares A as a
    dependency is a recorded dependent of A, so such a task whose name is
    not completed holds the completion of A back. *)
Theorem complete_task_gated_by_dependents (self : TaskManager) (A : string)
    (index : nat) (x : entry) :
  list_find (λ x : entry, name (entry_task x) = A) (tasks self) = Some (index, x) →
  (∀ dep, dep ∈ dependencies (entry_task x) → dep ∈ completed_tasks self) →
  ((∃ d, d ∈ dependents_of self A ∧ d ∉ completed_tasks self) →
     complete_task self A
     = (Return (BlockedByDependents
                  (filter (λ d, d ∉ completed_tasks self) (dependents_of self A))),
        self)
     ∧ filter (λ d, d ∉ completed_tasks self) (dependents_of self A) ≠ [])
  ∧ (well_formed self →
     (∀ d, d ∈ dependents_of self A → d ∈ completed_tasks self) →
     ∃ self',
       complete_task self A = (Return Completed, self')
       ∧ tasks self ≡ₚ x :: tasks self'
       ∧ completed_tasks self' = {[A]} ∪ completed_tasks self
       ∧ task_dependencies self' = task_dependencies self
       ∧ counter self' = counter self)
  ∧ (∀ ops y, self = run fresh ops →
       y ∈ tasks self → A ∈ dependencies (entry_task y) →
       name (entry_task y) ∉ completed_tasks self →
       ∃ blocked, complete_task self A = (Return (BlockedByDependents blocked), self)
                  ∧ name (entry_task y) ∈ blocked).
Proof.
  intros Hf Hdeps. rewrite (complete_task_found self A index x Hf).
  assert (filter (λ d, d ∉ completed_tasks self) (dependencies (entry_task x)) = [])
    as ->.
  { apply filter_nil_iff. intros d Hd Hn. by apply Hn, Hdeps. }
  split_and!.
  - intros (d & Hd & Hn).
    assert (d ∈ filter (λ d, d ∉ completed_tasks self) (dependents_of self A))
      as Hin by by apply list_elem_of_filter.
    destruct (filter _ (dependents_of self A)) as [|b bs];
      [by apply elem_of_nil in Hin|done].
  - intros Hwf Hall.
    assert (filter (λ d, d ∉ completed_tasks self) (dependents_of self A) = [])
      as ->.
    { apply filter_nil_iff. intros d Hd Hn. by apply Hn, Hall. }
    destruct (heapify_ok (delete index (tasks self))) as (heap & -> & Hperm).
    { eapply comparable_subseteq; [apply list_subseteq_delete|].
      by apply well_formed_comparable. }
    eexists. split; [done|]. simpl. split_and!; try done.
    rewrite Hperm. apply delete_Permutation.
    by apply list_find_Some in Hf as (? & _).
  - intros ops y -> Hy HA Hn.
    destruct (fresh_run_edges_recorded ops) as [_ [Hrec _]].
    assert (name (entry_task y)
            ∈ filter (λ d, d ∉ completed_tasks (run fresh ops))
                     (dependents_of (run fresh ops) A)) as Hin.
    { apply list_elem_of_filter. split; [done|by apply Hrec]. }
    destruct (filter _ (dependents_of _ A)) as [|b bs] eqn:Hb;
      [by apply elem_of_nil in Hin|].
    by eexists.
Qed.

Lemma complete_task_gated_by_dependents_witness :
  complete_task foundation_walls "Foundation"
  = (Return (BlockedByDependents ["Walls"]), foundation_walls)
  ∧ ∃ self',
      complete_task dependents_done "A" = (Return Completed, self')
      ∧ tasks dependents_done ≡ₚ (3%Z, 3, mkTask "A" 3 [] None) :: tasks self'
      ∧ completed_tasks self' = {[ "A" ]} ∪ completed_tasks dependents_done
      ∧ task_dependencies self' = task_dependencies dependents_done
      ∧ counter self' = counter dependents_done.
Proof.
  split.
  - refine (eq_trans
      (proj1 (proj1 (complete_task_gated_by_dependents foundation_walls "Foundation"
                       0 (1%Z, 1, mkTask "Foundation" 1 [] None) _ _) _)) _).
    + by vm_compute.
    + intros dep Hdep. by apply elem_of_nil in Hdep.
    + exists "Walls". split; decide_by_computing.
    + by vm_compute.
  - refine (proj1 (proj2 (complete_task_gated_by_dependents dependents_done "A"
                            0 (3%Z, 3, mkTask "A" 3 [] None) _ _)) _ _).
    + by vm_compute.
    + intros dep Hdep. by apply elem_of_nil in Hdep.
    + split; decide_by_computing.
    + intros d Hd.
      assert (dependents_of dependents_done "A" = ["B"]) as Heq by by vm_compute.
      rewrite Heq in Hd. apply list_elem_of_singleton in Hd as ->.
      decide_by_computing.
Defined.

(** ** C2: names already in use *)

(** C2, as the code has it. [add_task] never looks at whether the name is
    in use: for a name that is already pending or completed (not blank,
    with a priority [int] converts and known dependencies) the add succeeds
    and stores one more task under that name, next to the pending one if
    there is one; names can be reused. *)
Theorem add_task_accepts_used_name (self : TaskManager) (n : string) (p : pyval)
    (z : Z) (deps : list string) (dl : option string) :
  well_formed self →
  n ∈ names_of (tasks self) ∨ n ∈ completed_tasks self →
  whitespace_only n = false → py_int p = Return z →
  (∀ d, d ∈ deps → d ∈ names_of (tasks self) ∨ d ∈ completed_tasks self) →
  ∃ self',
    add_task self n p deps dl = (Return (mkTask n z deps dl), self')
    ∧ tasks self' ≡ₚ (z, counter self + 1, mkTask n z deps dl) :: tasks self
    ∧ names_of (tasks self') ≡ₚ n :: names_of (tasks self)
    ∧ completed_tasks self' = completed_tasks self.
Proof.
  intros Hwf _ Hw Hp Hknown.
  destruct (add_task_ok self n p deps dl z) as (heap & Heq & Hperm);
    [done..|by apply all_known|].
  eexists. split; [exact Heq|]. simpl. split_and!; [done| |done].
  unfold names_of. by rewrite Hperm.
Qed.

Lemma add_task_accepts_used_name_witness :
  ∃ self',
    add_task one_task "A" (PyInt 2) [] None = (Return (mkTask "A" 2 [] None), self')
    ∧ tasks self' ≡ₚ (2%Z, counter one_task + 1, mkTask "A" 2 [] None) :: tasks one_task
    ∧ names_of (tasks self') ≡ₚ "A" :: names_of (tasks one_task)
    ∧ completed_tasks self' = completed_tasks one_task.
Proof.
  apply (add_task_accepts_used_name one_task "A" (PyInt 2) 2 [] None).
  - split; decide_by_computing.
  - left. decide_by_computing.
  - reflexivity.
  - reflexivity.
  - intros d Hd. by apply elem_of_nil in Hd.
Defined.

(** C2 fails as stated: with A pending, a second add under the name A
    returns its task and leaves two pending entries named A; and after A
    has been completed, adding A again succeeds as well. *)
Lemma add_task_reuses_name :
  names_of (tasks one_task) = ["A"]
  ∧ (add_task one_task "A" (PyInt 2) [] None).1 = Return (mkTask "A" 2 [] None)
  ∧ names_of (tasks (add_task one_task "A" (PyInt 2) [] None).2) = ["A"; "A"]
  ∧ elements (completed_tasks (step one_task (Complete "A"))) = ["A"]
  ∧ (add_task (step one_task (Complete "A")) "A" (PyInt 2) [] None).1
    = Return (mkTask "A" 2 [] None).
Proof. by vm_compute. Qed.

(** ** C3: the order of the listing *)

(** C3, as the code has it. For every reachable object the listing is a
    rearrangement of the pending tasks with the priorities in ascending
    order, and tasks of one priority come in the order they have in
    [self.tasks], the heap array, which is not the order of insertion; for
    four tasks added with priorities 5, 1, 5, 3 the listing is task2,
    task4, task3, task1. *)
Theorem pending_listing_by_priority (self : TaskManager) :
  reachable self →
  pending_listing self ≡ₚ entry_task <$> tasks self
  ∧ StronglySorted (λ t1 t2, (priority t1 ≤ priority t2)%Z) (pending_listing self)
  ∧ (∀ p : Z, filter (λ t, priority t = p) (pending_listing self)
              = filter (λ t, priority t = p) (entry_task <$> tasks self))
  ∧ name <$> pending_listing four_tasks = ["task2"; "task4"; "task3"; "task1"].
Proof.
  intros Hag%reachable_priorities_agree. unfold pending_listing.
  assert (priorities_agree (sorted_by_priority (tasks self))) as Hag'.
  { eapply priorities_agree_perm; [|exact Hag].
    symmetry. apply sorted_by_priority_perm. }
  split_and!.
  - by rewrite sorted_by_priority_perm.
  - pose proof (sorted_by_priority_sorted (tasks self)) as Hs.
    induction Hs as [|x l Hs IH Hall]; [constructor|].
    apply Forall_cons in Hag' as [Hx Hag'].
    rewrite fmap_cons. constructor; [by apply IH|].
    apply Forall_fmap. rewrite Forall_forall in Hall, Hag' |- *.
    intros y Hy. specialize (Hall y Hy). specialize (Hag' y Hy).
    unfold priority_le in Hall. simpl. congruence.
  - intros p. rewrite !filter_priority_tasks by done.
    by rewrite sorted_by_priority_stable.
  - by vm_compute.
Qed.

Lemma pending_listing_by_priority_witness :
  pending_listing four_tasks ≡ₚ entry_task <$> tasks four_tasks
  ∧ StronglySorted (λ t1 t2, (priority t1 ≤ priority t2)%Z) (pending_listing four_tasks)
  ∧ (∀ p : Z, filter (λ t, priority t = p) (pending_listing four_tasks)
              = filter (λ t, priority t = p) (entry_task <$> tasks four_tasks))
  ∧ name <$> pending_listing four_tasks = ["task2"; "task4"; "task3"; "task1"].
Proof.
  apply (pending_listing_by_priority four_tasks).
  exists Missing. eexists. reflexivity.
Defined.

(** C3 fails as stated: after adding task1..task4 with priorities 5, 1, 5, 3
    the listing shows task3 (sequence 3) before task1 (sequence 1), both of
    priority 5. Nor is the order of two tasks of one priority kept: a and b
    are listed a, b; once c is added they are listed b, a; once c is
    completed they are listed a, b again. *)
Lemma pending_listing_not_by_sequence :
  name <$> pending_listing four_tasks = ["task2"; "task4"; "task3"; "task1"]
  ∧ entry_counter <$> sorted_by_priority (tasks four_tasks) = [2; 4; 3; 1]
  ∧ entry_priority <$> sorted_by_priority (tasks four_tasks) = [1; 3; 5; 5]%Z
  ∧ name <$> pending_listing four_tasks ≠ ["task2"; "task4"; "task1"; "task3"]
  ∧ name <$> pending_listing two_ties = ["a"; "b"]
  ∧ name <$> pending_listing two_ties_and_one = ["c"; "b"; "a"]
  ∧ name <$> pending_listing two_ties_again = ["a"; "b"].
Proof. by vm_compute. Qed.

(** ** C4: the dependents of a name *)

(** C4, as the code has it. The dependents of a name D are a list, and a
    successful add appends the new task's name to it once for every
    occurrence of D among the new task's dependencies: nothing is removed
    or merged, so a repeated dependency (or a reused name) leaves the name
    in the list more than once. No edge is lost: the new name is among the
    dependents of each of its dependencies, and every earlier dependent
    stays, so two different tasks depending on D both appear. *)
Theorem add_task_records_edges (self : TaskManager) (n : string) (p : pyval)
    (deps : list string) (dl : option string) (t : task) (self' : TaskManager)
    (D : string) :
  add_task self n p deps dl = (Return t, self') →
  dependents_of self' D
  = dependents_of self D ++ replicate (length (filter (λ d, d = D) deps)) n
  ∧ (D ∈ deps → n ∈ dependents_of self' D)
  ∧ (∀ m, m ∈ dependents_of self D → m ∈ dependents_of self' D).
Proof.
  intros Hadd.
  destruct (add_task_Return_inv _ _ _ _ _ _ _ Hadd)
    as (z & heap & _ & _ & _ & _ & _ & ->).
  assert (dependents_of (after_add self heap n deps) D
          = dependents_of self D ++ replicate (length (filter (λ d, d = D) deps)) n)
    as Heq by apply record_edges_lookup.
  rewrite Heq. split_and!; [done| |].
  - intros HD. apply elem_of_app; right. apply elem_of_replicate. split; [done|].
    assert (D ∈ filter (λ d, d = D) deps) as Hin by by apply list_elem_of_filter.
    destruct (filter (λ d, d = D) deps); [by apply elem_of_nil in Hin|done].
  - intros m Hm. apply elem_of_app. by left.
Qed.

Lemma add_task_records_edges_witness :
  dependents_of (add_task one_dependent "C" (PyInt 3) ["D"] None).2 "D" = ["B"; "C"].
Proof.
  refine (eq_trans
    (proj1 (add_task_records_edges one_dependent "C" (PyInt 3) ["D"] None
              (mkTask "C" 3 ["D"] None)
              (add_task one_dependent "C" (PyInt 3) ["D"] None).2 "D" _)) _);
    by vm_compute.
Defined.

(** C4 fails as stated: B added with the dependency A written twice is
    recorded twice among the dependents of A. *)
Lemma dependents_hold_duplicates :
  (add_task one_task "B" (PyInt 1) ["A"; "A"] None).1
  = Return (mkTask "B" 1 ["A"; "A"] None)
  ∧ dependents_of repeated_dependency "A" = ["B"; "B"]
  ∧ ¬ NoDup (dependents_of repeated_dependency "A").
Proof.
  split_and!; [by vm_compute..|].
  assert (dependents_of repeated_dependency "A" = ["B"; "B"]) as -> by by vm_compute.
  intros [Hin _]%NoDup_cons. apply Hin. by left.
Qed.

(** ** C5: the executability evaluator *)

(** C5. For every task and every completed set, [is_task_executable]
    returns [(True, [])] when the task has no dependencies; otherwise its
    second component is the list of the dependencies that are not completed,
    in the task's own order, and the first component is [True] exactly when
    that list is empty (that is, when every dependency is completed). The
    function returns this pair and nothing else: it has no object to hand
    back, so it changes none. *)
Theorem is_task_executable_spec (self : TaskManager) (t : task) :
  (dependencies t = [] → is_task_executable self t = (true, []))
  ∧ (is_task_executable self t).2
    = filter (λ dep, dep ∉ completed_tasks self) (dependencies t)
  ∧ (∀ dep, dep ∈ (is_task_executable self t).2
            ↔ dep ∈ dependencies t ∧ dep ∉ completed_tasks self)
  ∧ (is_task_executable self t).2 `sublist_of` dependencies t
  ∧ ((is_task_executable self t).1 = true ↔ (is_task_executable self t).2 = [])
  ∧ ((is_task_executable self t).1 = true
     ↔ ∀ dep, dep ∈ dependencies t → dep ∈ completed_tasks self).
Proof.
  split_and!.
  - intros Hd. unfold is_task_executable. by rewrite Hd.
  - apply is_task_executable_pending.
  - intros dep. rewrite is_task_executable_pending, list_elem_of_filter. tauto.
  - rewrite is_task_executable_pending. apply sublist_filter.
  - apply is_task_executable_flag.
  - rewrite is_task_executable_flag, is_task_executable_pending, filter_nil_iff.
    split; intros H dep Hdep; specialize (H dep Hdep).
    + by apply dec_stable.
    + by intros ?.
Qed.

Lemma is_task_executable_spec_witness :
  is_task_executable fresh (mkTask "Walls" 2 [] None) = (true, []).
Proof.
  apply (is_task_executable_spec fresh (mkTask "Walls" 2 [] None)). reflexivity.
Defined.

(** ** C6: unknown dependencies *)

(** C6. When some entry of the dependency list names neither a pending nor
    a completed task, [add_task] raises and hands the object back as it
    received it: no task stored, counter, index and file untouched. For a
    call that passes the name and priority checks, which come first, the
    exception is the one about dependencies and carries every offending
    entry of the list, in the order of the list. *)
Theorem add_task_unknown_dependency (self : TaskManager) (n : string) (p : pyval)
    (deps : list string) (dl : option string) (d : string) :
  d ∈ deps → d ∉ names_of (tasks self) → d ∉ completed_tasks self →
  (∃ e, add_task self n p deps dl = (Raise e, self))
  ∧ (∀ z, whitespace_only n = false → py_int p = Return z →
       add_task self n p deps dl
       = (Raise (UnknownDependency (filter (unknown self) deps)), self))
  ∧ d ∈ filter (unknown self) deps
  ∧ (∀ dep, dep ∈ filter (unknown self) deps
            ↔ dep ∈ deps ∧ (dep ∉ names_of (tasks self)) ∧ (dep ∉ completed_tasks self))
  ∧ filter (unknown self) deps `sublist_of` deps.
Proof.
  intros Hd Hn Hc.
  destruct (unknown_filter_elem self deps d Hd Hn Hc) as [Hin Hne].
  split_and!.
  - by apply add_task_unknown_fails.
  - intros z Hw Hp. by apply (add_task_unknown _ _ _ _ _ z).
  - done.
  - intros dep. rewrite list_elem_of_filter. unfold unknown. tauto.
  - apply sublist_filter.
Qed.

Lemma add_task_unknown_dependency_witness :
  add_task one_task "T" (PyInt 3) ["ghost"; "A"; "other"] None
  = (Raise (UnknownDependency ["ghost"; "other"]), one_task).
Proof.
  refine (eq_trans
    (proj1 (proj2 (add_task_unknown_dependency one_task "T" (PyInt 3)
                     ["ghost"; "A"; "other"] None "ghost" _ _ _))
       3%Z eq_refl eq_refl) _);
    [decide_by_computing..|].
  by vm_compute.
Defined.

(** ** C7: sequence numbers *)

(** C7, as the code has it. On every object the program can reach the
    pending tasks carry pairwise different sequence numbers, none above the
    counter, and a successful add hands out counter + 1, which is above all
    of them. Between two starts of the program the numbers handed out are
    strictly increasing. A start of the program renumbers the pending tasks
    0, 1, ... in stored order and sets the counter to their number, so a
    number handed out before can be handed out again afterwards. *)
Theorem sequences_fresh_among_pending (f : file) (ops : list op) :
  let self := run (TaskManager_init f) ops in
  NoDup (entry_counter <$> tasks self)
  ∧ Forall (λ x, entry_counter x ≤ counter self) (tasks self)
  ∧ (∀ n p deps dl t self',
       add_task self n p deps dl = (Return t, self') →
       counter self' = counter self + 1
       ∧ tasks self' ≡ₚ (priority t, counter self + 1, t) :: tasks self
       ∧ Forall (λ x, entry_counter x < counter self + 1) (tasks self))
  ∧ (∀ ops', Forall (λ o, o ≠ Restart) ops' →
       StronglySorted lt (assigned_sequences self ops')
       ∧ Forall (λ c, counter self < c) (assigned_sequences self ops'))
  ∧ entry_counter <$> tasks (step self Restart)
    = seq 0 (length (tasks (step self Restart)))
  ∧ counter (step self Restart) = length (tasks (step self Restart)).
Proof.
  intros self.
  assert (well_formed self) as Hwf
    by apply run_well_formed, TaskManager_init_well_formed.
  destruct Hwf as [Hnd Hle]. split_and!; [done..| | | |].
  - intros n p deps dl t self' Hadd.
    destruct (add_task_Return_inv _ _ _ _ _ _ _ Hadd)
      as (z & heap & Hw & Hp & Hnil & Hpush & -> & ->).
    destruct (add_task_ok self n p deps dl z) as (heap' & Heq & Hperm);
      [by split|done..|].
    rewrite Heq in Hadd. simplify_eq. simpl. split_and!; [done..|].
    eapply Forall_impl; [exact Hle|]. simpl. intros; lia.
  - intros ops'. apply assigned_sequences_increasing.
  - simpl. unfold TaskManager_init, load_tasks.
    destruct (disk self) as [| |data]; simpl; [done..|].
    by rewrite loaded_counters, length_imap.
  - simpl. unfold TaskManager_init, load_tasks.
    by destruct (disk self) as [| |data].
Qed.

(** C7 fails as stated: a is added and completed, the program is started
    again and b is added; both adds handed out the sequence number 1. *)
Lemma sequence_reused_after_restart :
  assigned_sequences fresh
    [Add "a" (PyInt 1) [] None; Complete "a"; Restart; Add "b" (PyInt 1) [] None]
  = [1; 1]
  ∧ tasks (run fresh [Add "a" (PyInt 1) [] None])
    = [(1%Z, 1, mkTask "a" 1 [] None)]
  ∧ tasks (run fresh [Add "a" (PyInt 1) [] None; Complete "a"; Restart;
                      Add "b" (PyInt 1) [] None])
    = [(1%Z, 1, mkTask "b" 1 [] None)].
Proof. by vm_compute. Qed.

(** ** C8: the name and the priority *)

(** C8, as the code has it. [add_task] raises the exception about the name
    for an empty or blank-only name, and the exception about the priority
    for every priority on which [int] raises [ValueError] (a string that is
    not a base-10 integer literal, such as "2.5" or "abc"); both leave the
    object as it was. A priority that [int] converts is not rejected: the
    task is stored with the converted integer, whatever the value passed
    (a float is cut towards zero, a string is read as the number it spells). *)
Theorem add_task_validation (self : TaskManager) (n : string) (p : pyval)
    (deps : list string) (dl : option string) :
  (whitespace_only n = true → add_task self n p deps dl = (Raise InvalidName, self))
  ∧ (whitespace_only n = false → py_int p = Raise ValueError →
       add_task self n p deps dl = (Raise InvalidPriority, self))
  ∧ (∀ t self', add_task self n p deps dl = (Return t, self') →
       whitespace_only n = false ∧ py_int p = Return (priority t))
  ∧ (∀ z, well_formed self → whitespace_only n = false → py_int p = Return z →
       filter (unknown self) deps = [] →
       ∃ self', add_task self n p deps dl = (Return (mkTask n z deps dl), self'))
  ∧ py_int (PyStr "2.5") = Raise ValueError
  ∧ py_int (PyStr "abc") = Raise ValueError
  ∧ py_int (PyStr " 42 ") = Return 42%Z
  ∧ py_int (PyFloat 5 (-1)) = Return 2%Z.
Proof.
  split_and!; try done.
  - apply add_task_blank_name.
  - apply add_task_bad_priority.
  - intros t self' Hadd.
    destruct (add_task_Return_inv _ _ _ _ _ _ _ Hadd)
      as (z & heap & Hw & Hp & _ & _ & -> & _).
    done.
  - intros z Hwf Hw Hp Hnil.
    destruct (add_task_ok self n p deps dl z) as (heap & Heq & _); [done..|].
    by eexists.
Qed.

Lemma add_task_validation_witness :
  add_task one_task "   " (PyInt 1) [] None = (Raise InvalidName, one_task)
  ∧ add_task one_task "t" (PyStr "2.5") [] None = (Raise InvalidPriority, one_task).
Proof.
  split.
  - apply (add_task_validation one_task "   " (PyInt 1) [] None). reflexivity.
  - apply (add_task_validation one_task "t" (PyStr "2.5") [] None); reflexivity.
Defined.

(** C8 fails as stated: the float 2.5 is no integer, yet the add succeeds
    and the task is stored with priority 2. *)
Lemma add_task_truncates_float :
  (add_task fresh "t" (PyFloat 5 (-1)) [] None).1 = Return (mkTask "t" 2 [] None)
  ∧ tasks (add_task fresh "t" (PyFloat 5 (-1)) [] None).2
    = [(2%Z, 1, mkTask "t" 2 [] None)].
Proof. by vm_compute. Qed.

(** ** C9: save then load *)

(** C9. For every object whose pending priorities all have at most 4300
    decimal digits, a program started on the file that [save_tasks] wrote
    holds the same pending task dicts (name, priority, dependencies,
    deadline) in the stored order, the same completed set and the same
    dependency index; the sequence numbers are rebuilt as the positions
    0, 1, ... in the stored list and the counter as their number. For every
    other object [save_tasks] leaves a file that is not valid JSON, and a
    program started on it holds nothing. *)
Theorem save_load_round_trip (self : TaskManager) :
  let reloaded := TaskManager_init (disk (save_tasks self)) in
  (storable self →
   entry_task <$> tasks reloaded = entry_task <$> tasks self
   ∧ names_of (tasks reloaded) = names_of (tasks self)
   ∧ completed_tasks reloaded = completed_tasks self
   ∧ task_dependencies reloaded = task_dependencies self
   ∧ entry_counter <$> tasks reloaded = seq 0 (length (tasks self))
   ∧ counter reloaded = length (tasks self))
  ∧ (¬ storable self →
     disk (save_tasks self) = Corrupt
     ∧ reloaded = mkTaskManager [] ∅ ∅ 0 (Stored empty_snapshot)).
Proof.
  cbv zeta. split; intros Hs.
  - rewrite (save_tasks_storable self Hs).
    unfold TaskManager_init, load_tasks; simpl.
    assert (entry_task <$> imap (λ index t, (priority t, index, t))
                               (entry_task <$> tasks self)
            = entry_task <$> tasks self) as Htasks by apply loaded_tasks.
    split_and!.
    + done.
    + unfold names_of. by rewrite !(list_fmap_compose entry_task name), Htasks.
    + apply list_to_set_elements_L.
    + done.
    + by rewrite loaded_counters, length_fmap.
    + by rewrite length_imap, length_fmap.
  - by rewrite (save_tasks_not_storable self Hs).
Qed.

Lemma save_load_round_trip_witness :
  names_of (tasks (TaskManager_init (disk (save_tasks (from_fresh stored_run)))))
  = names_of (tasks (from_fresh stored_run))
  ∧ completed_tasks (TaskManager_init (disk (save_tasks (from_fresh stored_run))))
    = completed_tasks (from_fresh stored_run)
  ∧ task_dependencies (TaskManager_init (disk (save_tasks (from_fresh stored_run))))
    = task_dependencies (from_fresh stored_run).
Proof.
  destruct (save_load_round_trip (from_fresh stored_run)) as [Hround _].
  destruct Hround as (_ & Hnames & Hcompleted & Hindex & _).
  { decide_by_computing. }
  split; [exact Hnames|]. split; [exact Hcompleted|exact Hindex].
Defined.

(** Saving a task whose priority has 4301 digits: the task is pending, the
    file is left cut off, and the program started on it has no task. *)
Lemma save_load_loses_long_priority :
  names_of (tasks long_priority) = ["t"]
  ∧ disk (save_tasks long_priority) = Corrupt
  ∧ names_of (tasks (TaskManager_init (disk (save_tasks long_priority)))) = [].
Proof. by vm_compute. Qed.

(** ** C10: a task depending on itself *)

(** C10. When the name N of the new task is neither pending nor completed
    and N is among its own dependencies, [add_task] raises and leaves the
    object as it was, so no task is ever stored depending on itself under a
    fresh name; for a call that passes the name and priority checks the
    exception is the one about dependencies and N is among the names it
    carries (it is the only one when the list is just N). *)
Theorem add_task_self_dependency (self : TaskManager) (N : string) (p : pyval)
    (deps : list string) (dl : option string) :
  N ∉ names_of (tasks self) → N ∉ completed_tasks self → N ∈ deps →
  (∃ e, add_task self N p deps dl = (Raise e, self))
  ∧ (∀ z, whitespace_only N = false → py_int p = Return z →
       ∃ invalid, add_task self N p deps dl = (Raise (UnknownDependency invalid), self)
                  ∧ N ∈ invalid)
  ∧ (∀ z, whitespace_only N = false → py_int p = Return z → deps = [N] →
       add_task self N p deps dl = (Raise (UnknownDependency [N]), self)).
Proof.
  intros Hn Hc Hd.
  destruct (unknown_filter_elem self deps N Hd Hn Hc) as [Hin Hne].
  split_and!.
  - by apply add_task_unknown_fails.
  - intros z Hw Hp. eexists. split; [by apply (add_task_unknown _ _ _ _ _ z)|done].
  - intros z Hw Hp ->. rewrite (add_task_unknown _ _ _ _ _ z) by done.
    by rewrite filter_cons_True.
Qed.

Lemma add_task_self_dependency_witness :
  add_task one_task "B" (PyStr "2") ["B"] None
  = (Raise (UnknownDependency ["B"]), one_task).
Proof.
  refine (proj2 (proj2 (add_task_self_dependency one_task "B" (PyStr "2")
                          ["B"] None _ _ _))
            2%Z eq_refl eq_refl eq_refl);
    decide_by_computing.
Defined.

(** * Further properties of the code *)

(** ** What a call can do to a well-formed object *)

Section outcomes.
Lemma add_task_outcomes self n p deps dl :
  well_formed self →
  (∃ e, add_task self n p deps dl = (Raise e, self)
        ∧ (validation_error e ∨ py_int p = Raise e))
  ∨ (∃ z heap,
       whitespace_only n = false ∧ py_int p = Return z
       ∧ filter (unknown self) deps = []
       ∧ add_task self n p deps dl
         = (Return (mkTask n z deps dl), after_add self heap n deps)
       ∧ heap ≡ₚ (z, counter self + 1, mkTask n z deps dl) :: tasks self).
Proof.
  intros Hwf. destruct (whitespace_only n) eqn:Hw.
  { left. exists InvalidName. rewrite add_task_blank_name by done.
    split; [done|]. left. by left. }
  destruct (py_int p) as [z|e] eqn:Hp; cycle 1.
  { left. unfold add_task. rewrite name_check_false, Hp by done.
    destruct e; eexists; (split; [done|]);
      first [by right | left; right; by left]. }
  destruct (filter (unknown self) deps) as [|d ds] eqn:Hf; cycle 1.
  { left. eexists. rewrite (add_task_unknown _ _ _ _ _ z); [|done..|by rewrite Hf].
    split; [done|]. left. right. right. by eexists. }
  right. destruct (add_task_ok self n p deps dl z) as (heap & Heq & Hperm); [done..|].
  by exists z, heap.
Qed.

Lemma complete_task_outcomes self A :
  well_formed self →
  (∃ r, r ≠ Completed ∧ complete_task self A = (Return r, self)
        ∧ (A ∉ names_of (tasks self) → r = NotFound))
  ∨ (∃ index x heap,
       list_find (λ x : entry, name (entry_task x) = A) (tasks self) = Some (index, x)
       ∧ filter (λ d, d ∉ completed_tasks self) (dependencies (entry_task x)) = []
       ∧ filter (λ d, d ∉ completed_tasks self) (dependents_of self A) = []
       ∧ complete_task self A = (Return Completed, after_complete self heap A)
       ∧ heap ≡ₚ delete index (tasks self)).
Proof.
  intros Hwf.
  destruct (list_find (λ x : entry, name (entry_task x) = A) (tasks self))
    as [[index x]|] eqn:Hf; cycle 1.
  { left. exists NotFound. by rewrite complete_task_not_found. }
  assert (A ∈ names_of (tasks self)) as Hin.
  { apply pending_found. by exists index, x. }
  rewrite (complete_task_found _ _ index x Hf).
  destruct (filter _ (dependencies _)) as [|d ds] eqn:Hd.
  2:{ left. exists (UnmetDependencies (d :: ds)). by split_and!. }
  destruct (filter _ (dependents_of _ _)) as [|b bs] eqn:Hb.
  2:{ left. exists (BlockedByDependents (b :: bs)). by split_and!. }
  right. destruct (heapify_ok (delete index (tasks self))) as (heap & -> & Hperm).
  { eapply comparable_subseteq; [apply list_subseteq_delete|].
    by apply well_formed_comparable. }
  by exists index, x, heap.
Qed.

(** Whatever the object, a completion that is reported went through both
    checks and left the object [after_complete]. *)
Lemma complete_task_Completed_inv self A self' :
  complete_task self A = (Return Completed, self') →
  ∃ index x heap,
    list_find (λ x : entry, name (entry_task x) = A) (tasks self) = Some (index, x)
    ∧ filter (λ d, d ∉ completed_tasks self) (dependencies (entry_task x)) = []
    ∧ filter (λ d, d ∉ completed_tasks self) (dependents_of self A) = []
    ∧ heapify (delete index (tasks self)) = HeapOk heap
    ∧ self' = after_complete self heap A.
Proof.
  intros Hc.
  destruct (list_find (λ x : entry, name (entry_task x) = A) (tasks self))
    as [[index x]|] eqn:Hf; [|by rewrite complete_task_not_found in Hc].
  rewrite (complete_task_found _ _ index x Hf) in Hc.
  destruct (filter _ (dependencies _)) as [|d ds] eqn:Hd; [|done].
  destruct (filter _ (dependents_of _ _)) as [|b bs] eqn:Hb; [|done].
  destruct (heapify _) as [heap|e heap] eqn:Hh; [|done].
  simplify_eq. by exists index, x, heap.
Qed.
End outcomes.

(** ** Runs that began without a file *)

Section from_fresh.
Lemma step_synced self o :
  well_formed self → save_tasks self = self → save_tasks (step self o) = step self o.
Proof.
  intros Hwf Hsync. destruct o as [n p deps dl|A|].
  - simpl. destruct (add_task_outcomes self n p deps dl Hwf)
      as [(e & -> & _)|(z & heap & _ & _ & _ & -> & _)]; [done|].
    apply save_tasks_idemp.
  - simpl. destruct (complete_task_outcomes self A Hwf)
      as [(r & _ & -> & _)|(index & x & heap & _ & _ & _ & -> & _)]; [done|].
    apply save_tasks_idemp.
  - by apply restart_keeps_sync.
Qed.

(** To show that a property holds after every run from a fresh start it is
    enough to carry it over one step from a well-formed object whose file
    is up to date. *)
Lemma from_fresh_ind (P : TaskManager → Prop) :
  P fresh →
  (∀ self o, well_formed self → save_tasks self = self → P self → P (step self o)) →
  ∀ ops, P (from_fresh ops).
Proof.
  intros Hfresh Hstep ops. unfold from_fresh.
  assert (well_formed fresh ∧ save_tasks fresh = fresh ∧ P fresh) as Hinit.
  { split_and!; [apply TaskManager_init_well_formed|done..]. }
  revert Hinit. generalize fresh.
  induction ops as [|o ops IH]; intros self (Hwf & Hsync & HP); [done|].
  simpl. apply IH. split_and!;
    [by apply step_well_formed|by apply step_synced|by apply Hstep].
Qed.

Lemma from_fresh_well_formed ops :
  well_formed (from_fresh ops) ∧ save_tasks (from_fresh ops) = from_fresh ops.
Proof.
  apply (from_fresh_ind (λ self, well_formed self ∧ save_tasks self = self)).
  - split; [apply TaskManager_init_well_formed|done].
  - intros self o Hwf Hsync _. split; [by apply step_well_formed|by apply step_synced].
Qed.

Lemma from_fresh_snoc ops o : from_fresh (ops ++ [o]) = step (from_fresh ops) o.
Proof. unfold from_fresh, run. by rewrite foldl_app. Qed.

Lemma from_fresh_app ops ops' : from_fresh (ops ++ ops') = run (from_fresh ops) ops'.
Proof. unfold from_fresh, run. by rewrite foldl_app. Qed.
End from_fresh.

(** ** X1-X4: what one call does *)

(** X1. On every object the program can reach, [complete_task] raises
    nothing: it reports one of its four outcomes. Unless the report is the
    completion, the object is left exactly as it was; a name that is not
    pending is reported as not found; and a completion takes exactly one
    entry out of the pending list and puts the name into the completed
    set. *)
Theorem complete_task_reports (self : TaskManager) (A : string) :
  reachable self →
  ∃ r, (complete_task self A).1 = Return r
       ∧ (r ≠ Completed → (complete_task self A).2 = self)
       ∧ (A ∉ names_of (tasks self) → r = NotFound)
       ∧ (r = Completed →
            A ∈ names_of (tasks self)
            ∧ A ∈ completed_tasks (complete_task self A).2
            ∧ length (tasks (complete_task self A).2) + 1 = length (tasks self)).
Proof.
  intros Hwf%reachable_well_formed.
  destruct (complete_task_outcomes self A Hwf)
    as [(r & Hr & -> & Hnf)|(index & x & heap & Hf & _ & _ & -> & Hperm)].
  - exists r. by split_and!.
  - assert (A ∈ names_of (tasks self)) as Hin
      by (apply pending_found; by exists index, x).
    exists Completed. simpl. split; [done|]. split; [by intros []|].
    split; [by intros []|]. intros _. split_and!.
    + done.
    + unfold after_complete. simpl. apply elem_of_union. left.
      by apply elem_of_singleton.
    + apply list_find_Some in Hf as (Hl & _ & _).
      unfold after_complete. simpl. rewrite Hperm, length_delete by done.
      apply lookup_lt_Some in Hl. lia.
Qed.

Lemma complete_task_reports_witness :
  ∃ r, (complete_task foundation_walls "Roof").1 = Return r
       ∧ (r ≠ Completed → (complete_task foundation_walls "Roof").2 = foundation_walls)
       ∧ ("Roof" ∉ names_of (tasks foundation_walls) → r = NotFound)
       ∧ (r = Completed →
            "Roof" ∈ names_of (tasks foundation_walls)
            ∧ "Roof" ∈ completed_tasks (complete_task foundation_walls "Roof").2
            ∧ length (tasks (complete_task foundation_walls "Roof").2) + 1
              = length (tasks foundation_walls)).
Proof.
  apply (complete_task_reports foundation_walls "Roof").
  exists Missing. eexists. reflexivity.
Defined.

(** X2. On every object the program can reach, [add_task] called with a
    string as priority, as [main] calls it, is all or nothing. Either it
    raises one of its three own exceptions and the object is unchanged, or
    the string spells an integer and the task is returned: one entry with
    that integer and the next counter value joins the pending list, the
    counter goes up by one, and the completed set stays as it was. *)
Theorem add_task_all_or_nothing (self : TaskManager) (n s : string)
    (deps : list string) (dl : option string) :
  reachable self →
  (∃ e, validation_error e ∧ add_task self n (PyStr s) deps dl = (Raise e, self))
  ∨ (∃ z self',
       int_of_str s = Some z
       ∧ add_task self n (PyStr s) deps dl = (Return (mkTask n z deps dl), self')
       ∧ tasks self' ≡ₚ (z, counter self + 1, mkTask n z deps dl) :: tasks self
       ∧ counter self' = counter self + 1
       ∧ completed_tasks self' = completed_tasks self).
Proof.
  intros Hwf%reachable_well_formed. destruct (whitespace_only n) eqn:Hw.
  { left. exists InvalidName. split; [by left|by apply add_task_blank_name]. }
  destruct (int_of_str s) as [z|] eqn:Hs; cycle 1.
  { left. exists InvalidPriority. split; [right; by left|].
    apply add_task_bad_priority; [done|]. simpl. by rewrite Hs. }
  assert (py_int (PyStr s) = Return z) as Hp by (simpl; by rewrite Hs).
  destruct (filter (unknown self) deps) as [|d ds] eqn:Hf; cycle 1.
  { left. eexists. split; [right; right; by eexists|].
    rewrite (add_task_unknown _ _ _ _ _ z); [|done..|by rewrite Hf]. by rewrite Hf. }
  right. destruct (add_task_ok self n (PyStr s) deps dl z)
    as (heap & Heq & Hperm); [done..|].
  exists z. eexists. by split_and!.
Qed.

Lemma add_task_all_or_nothing_witness :
  (∃ e, validation_error e
        ∧ add_task one_task "B" (PyStr "x") [] None = (Raise e, one_task))
  ∨ (∃ z self',
       int_of_str "x" = Some z
       ∧ add_task one_task "B" (PyStr "x") [] None = (Return (mkTask "B" z [] None), self')
       ∧ tasks self' ≡ₚ (z, counter one_task + 1, mkTask "B" z [] None) :: tasks one_task
       ∧ counter self' = counter one_task + 1
       ∧ completed_tasks self' = completed_tasks one_task).
Proof.
  apply (add_task_all_or_nothing one_task "B" "x" [] None).
  exists Missing, [Add "A" (PyInt 1) [] None]. reflexivity.
Defined.

(** X3. A task cannot be completed twice: when A names exactly one pending
    entry and [complete_task] completes it, A is in the completed set and
    no longer pending, and a second [complete_task] for A reports that the
    task is not found and changes nothing. *)
Theorem complete_task_once (self self' : TaskManager) (A : string) :
  well_formed self →
  length (filter (λ x : entry, name (entry_task x) = A) (tasks self)) = 1 →
  complete_task self A = (Return Completed, self') →
  A ∈ completed_tasks self'
  ∧ (A ∉ names_of (tasks self'))
  ∧ complete_task self' A = (Return NotFound, self').
Proof.
  intros Hwf Hone Hc.
  destruct (complete_task_outcomes self A Hwf)
    as [(r & Hr & Heq & _)|(index & x & heap & Hf & _ & _ & Heq & Hperm)];
    rewrite Heq in Hc; simplify_eq.
  apply list_find_Some in Hf as (Hl & Hn & _).
  assert (Forall (λ y : entry, name (entry_task y) ≠ A) heap) as Hnone.
  { apply Forall_forall. intros y Hy Hy'.
    pose proof (delete_Permutation _ _ _ Hl) as Hp. rewrite <- Hperm in Hp.
    rewrite Hp, filter_cons_True in Hone by done. simpl in Hone.
    assert (y ∈ filter (λ x : entry, name (entry_task x) = A) heap) as Hin
      by by apply list_elem_of_filter.
    destruct (filter _ heap); [by apply elem_of_nil in Hin|done]. }
  split_and!.
  - simpl. apply elem_of_union. left. by apply elem_of_singleton.
  - simpl. intros (y & Hy & Hin)%list_elem_of_fmap.
    rewrite Forall_forall in Hnone. by apply (Hnone y).
  - apply complete_task_not_found. by apply list_find_None.
Qed.

Lemma complete_task_once_witness :
  "A" ∈ completed_tasks (complete_task one_task "A").2
  ∧ ("A" ∉ names_of (tasks (complete_task one_task "A").2))
  ∧ complete_task (complete_task one_task "A").2 "A"
    = (Return NotFound, (complete_task one_task "A").2).
Proof.
  apply (complete_task_once one_task (complete_task one_task "A").2 "A").
  - split; decide_by_computing.
  - by vm_compute.
  - by vm_compute.
Defined.

(** X4. Completing A takes A, and nothing else, out of the unmet
    dependencies of every task: after a completion of A the list
    [is_task_executable] reports for a task is the list it reported before
    without the entries equal to A, so a task that was waiting for A alone
    has become executable. *)
Theorem complete_task_releases (self self' : TaskManager) (A : string) (t : task) :
  complete_task self A = (Return Completed, self') →
  (is_task_executable self' t).2
  = filter (λ d, d ≠ A) (is_task_executable self t).2
  ∧ ((∀ d, d ∈ (is_task_executable self t).2 → d = A) →
     (is_task_executable self' t).1 = true).
Proof.
  intros (index & x & heap & _ & _ & _ & _ & ->)%complete_task_Completed_inv.
  assert ((is_task_executable (after_complete self heap A) t).2
          = filter (λ d, d ≠ A) (is_task_executable self t).2) as Heq.
  { rewrite !is_task_executable_pending, list_filter_filter. simpl.
    apply list_filter_iff. intros d.
    rewrite not_elem_of_union, not_elem_of_singleton. tauto. }
  split; [done|]. intros Hall.
  apply is_task_executable_flag. rewrite Heq.
  apply filter_nil_iff. intros d Hd Hne. by apply Hne, Hall.
Qed.

Lemma complete_task_releases_witness :
  (is_task_executable one_task (mkTask "B" 2 ["A"] None)).2 = ["A"]
  ∧ (is_task_executable (complete_task one_task "A").2 (mkTask "B" 2 ["A"] None)).2 = []
  ∧ (is_task_executable (complete_task one_task "A").2 (mkTask "B" 2 ["A"] None)).1
    = true.
Proof.
  assert ((is_task_executable one_task (mkTask "B" 2 ["A"] None)).2 = ["A"]) as Hwaits
    by (vm_compute; reflexivity).
  destruct (complete_task_releases one_task (complete_task one_task "A").2 "A"
              (mkTask "B" 2 ["A"] None)) as [Hlist Hflag].
  { vm_compute. reflexivity. }
  split; [exact Hwaits|]. split.
  - rewrite Hlist, Hwaits. vm_compute. reflexivity.
  - apply Hflag. intros d Hd. rewrite Hwaits in Hd.
    apply elem_of_cons in Hd as [->|Hd]; [reflexivity|].
    by apply elem_of_nil in Hd.
Defined.

(** ** One step, seen from outside *)

Section step_effect.
Lemma known_iff self d : known self d ↔ ¬ unknown self d.
Proof.
  unfold known, unknown. split; [tauto|]. intros Hn.
  destruct (decide (d ∈ names_of (tasks self))); [by left|].
  destruct (decide (d ∈ completed_tasks self)); [by right|]. tauto.
Qed.

(** A step of a run leaves the object alone, or adds one checked task, or
    completes one task whose checks passed, or reloads what was saved, or,
    after a save that failed, begins again with nothing. *)
Lemma step_effect self o :
  well_formed self → save_tasks self = self →
  step self o = self
  ∨ (∃ n p z deps dl,
       o = Add n p deps dl ∧ whitespace_only n = false ∧ py_int p = Return z
       ∧ (∀ d, d ∈ deps → known self d)
       ∧ tasks (step self o) ≡ₚ (z, counter self + 1, mkTask n z deps dl) :: tasks self
       ∧ completed_tasks (step self o) = completed_tasks self
       ∧ (∀ D, dependents_of (step self o) D
               = dependents_of self D
                 ++ replicate (length (filter (λ d, d = D) deps)) n))
  ∨ (∃ A x,
       o = Complete A ∧ name (entry_task x) = A
       ∧ tasks self ≡ₚ x :: tasks (step self o)
       ∧ completed_tasks (step self o) = {[A]} ∪ completed_tasks self
       ∧ task_dependencies (step self o) = task_dependencies self
       ∧ (∀ d, d ∈ dependencies (entry_task x) → d ∈ completed_tasks self)
       ∧ (∀ d, d ∈ dependents_of self A → d ∈ completed_tasks self))
  ∨ (o = Restart ∧ storable self
     ∧ entry_task <$> tasks (step self o) = entry_task <$> tasks self
     ∧ entry_priority <$> tasks (step self o) = priority ∘ entry_task <$> tasks self
     ∧ completed_tasks (step self o) = completed_tasks self
     ∧ task_dependencies (step self o) = task_dependencies self)
  ∨ (o = Restart ∧ ¬ storable self
     ∧ step self o = mkTaskManager [] ∅ ∅ 0 (Stored empty_snapshot)).
Proof.
  intros Hwf Hsync. destruct o as [n p deps dl|A|].
  - simpl. destruct (add_task_outcomes self n p deps dl Hwf)
      as [(e & -> & _)|(z & heap & Hw & Hp & Hnil & -> & Hperm)]; [by left|].
    right; left. exists n, p, z, deps, dl. simpl. split_and!; try done.
    + intros d Hd. apply known_iff.
      exact (proj1 (filter_nil_iff _ _) Hnil d Hd).
    + intros D. apply after_add_dependents.
  - simpl. destruct (complete_task_outcomes self A Hwf)
      as [(r & _ & -> & _)|(index & x & heap & Hf & Hd & Hb & -> & Hperm)];
      [by left|].
    right; right; left. apply list_find_Some in Hf as (Hl & Hn & _).
    exists A, x. simpl. split_and!; try done.
    + rewrite Hperm. by apply delete_Permutation.
    + intros d Hin. apply dec_stable. intros Hc.
      exact (proj1 (filter_nil_iff _ _) Hd d Hin Hc).
    + intros d Hin. apply dec_stable. intros Hc.
      exact (proj1 (filter_nil_iff _ _) Hb d Hin Hc).
  - right; right; right. destruct (decide (storable self)) as [Hs|Hs].
    + left. destruct (restart_synced self Hsync Hs) as (?&?&?&?&_).
      by split_and!.
    + right. split_and!; [done..|]. by apply restart_lossy.
Qed.

Lemma names_of_perm l l' : l ≡ₚ l' → names_of l ≡ₚ names_of l'.
Proof. unfold names_of. by intros ->. Qed.

Lemma names_of_tasks l l' :
  entry_task <$> l = entry_task <$> l' → names_of l = names_of l'.
Proof.
  unfold names_of. intros Heq.
  by rewrite !(list_fmap_compose entry_task name), Heq.
Qed.

(** A name that can be used as a dependency can be used ever after, up to
    a restart on a file that could not be written. *)
Lemma step_known self o d :
  well_formed self → save_tasks self = self → o ≠ Restart ∨ storable self →
  known self d → known (step self o) d.
Proof.
  intros Hwf Hsync Ho Hk.
  destruct (step_effect self o Hwf Hsync)
    as [->|[(n & p & z & deps & dl & _ & _ & _ & _ & Hperm & Hc & _)
       |[(A & x & _ & Hn & Hperm & Hc & _)
       |[(_ & _ & Ht & _ & Hc & _)|(-> & Hs & _)]]]];
    [| | | |by destruct Ho];
    unfold known in *.
  - done.
  - rewrite Hc, (names_of_perm _ _ Hperm). destruct Hk; [left|by right].
    simpl. by right.
  - rewrite Hc. destruct Hk as [Hk|Hk];
      [|right; apply elem_of_union; by right].
    rewrite (names_of_perm _ _ Hperm) in Hk. simpl in Hk.
    apply elem_of_cons in Hk as [->|Hk]; [right|by left].
    rewrite Hn. apply elem_of_union. left. by apply elem_of_singleton.
  - by rewrite Hc, (names_of_tasks _ _ Ht).
Qed.
End step_effect.

(** ** X5-X10: what holds along every run from a fresh start *)

Section listing_congruence.
Implicit Types (x y : entry) (l : list entry).

Lemma insert_by_priority_shown x x' l l' :
  shown x = shown x' → shown <$> l = shown <$> l' →
  shown <$> insert_by_priority x l = shown <$> insert_by_priority x' l'.
Proof.
  intros Hx. revert l'. induction l as [|y l IH]; intros [|y' l'] Hl;
    try discriminate Hl.
  { simpl. by rewrite Hx. }
  rewrite !fmap_cons in Hl. injection Hl as Hpy Hty Hl. simpl.
  assert (shown y = shown y') as Hy by (unfold shown; congruence).
  assert (entry_priority x = entry_priority x') as Hpx
    by exact (f_equal fst Hx).
  rewrite Hpx, Hpy.
  destruct (entry_priority x' <=? entry_priority y')%Z.
  - rewrite !fmap_cons. by rewrite Hx, Hy, Hl.
  - rewrite !fmap_cons. rewrite Hy. f_equal. by apply IH.
Qed.

Lemma sorted_by_priority_shown l l' :
  shown <$> l = shown <$> l' →
  shown <$> sorted_by_priority l = shown <$> sorted_by_priority l'.
Proof.
  revert l'. induction l as [|x l IH]; intros [|x' l'] Hl;
    try discriminate Hl; [done|].
  rewrite !fmap_cons in Hl. injection Hl as Hpx Htx Hl. simpl.
  apply insert_by_priority_shown; [unfold shown; congruence|by apply IH].
Qed.

Lemma shown_of_parts l l' :
  entry_priority <$> l = entry_priority <$> l' →
  entry_task <$> l = entry_task <$> l' →
  shown <$> l = shown <$> l'.
Proof.
  revert l'. induction l as [|x l IH]; intros [|x' l'] Hp Ht;
    try discriminate Hp; [done|].
  injection Hp as Hp1 Hp. injection Ht as Ht1 Ht.
  rewrite !fmap_cons. unfold shown at 1 3. rewrite Hp1, Ht1. f_equal. by apply IH.
Qed.

Lemma priorities_agree_fmap l :
  priorities_agree l → entry_priority <$> l = priority ∘ entry_task <$> l.
Proof.
  induction 1 as [|x l Hx _ IH]; [done|].
  rewrite !fmap_cons. f_equal; [exact Hx|exact IH].
Qed.
End listing_congruence.

(** X5. Nothing is lost by stopping the program while the file can be
    written: after every run that began without a file and leaves no
    pending priority of more than 4300 digits, a restart finds the same
    pending task dicts in the same stored order, the same completed set and
    the same dependency index, leaves the file as it is, and the listing of
    the pending tasks is the same as before the restart. *)
Theorem restart_loses_nothing (ops : list op) :
  storable (from_fresh ops) →
  entry_task <$> tasks (step (from_fresh ops) Restart)
  = entry_task <$> tasks (from_fresh ops)
  ∧ completed_tasks (step (from_fresh ops) Restart) = completed_tasks (from_fresh ops)
  ∧ task_dependencies (step (from_fresh ops) Restart)
    = task_dependencies (from_fresh ops)
  ∧ disk (step (from_fresh ops) Restart) = disk (from_fresh ops)
  ∧ pending_listing (step (from_fresh ops) Restart) = pending_listing (from_fresh ops).
Proof.
  intros Hstorable.
  destruct (from_fresh_well_formed ops) as [Hwf Hsync].
  destruct (restart_synced _ Hsync Hstorable) as (Ht & Hp & Hc & Hi & Hd & _).
  split_and!; try done.
  unfold pending_listing.
  assert (shown <$> sorted_by_priority (tasks (step (from_fresh ops) Restart))
          = shown <$> sorted_by_priority (tasks (from_fresh ops))) as Hs.
  { apply sorted_by_priority_shown, shown_of_parts; [|done].
    rewrite Hp. symmetry. apply priorities_agree_fmap.
    apply reachable_priorities_agree. by exists Missing, ops. }
  apply (f_equal (fmap snd)) in Hs.
  by rewrite <- !list_fmap_compose in Hs.
Qed.

Lemma restart_loses_nothing_witness :
  entry_task <$> tasks (step (from_fresh stored_run) Restart)
  = [mkTask "Foundation" 1 [] None; mkTask "Walls" 2 ["Foundation"] None]
  ∧ completed_tasks (step (from_fresh stored_run) Restart) = {["Plan"]}
  ∧ dependents_of (step (from_fresh stored_run) Restart) "Foundation" = ["Walls"]
  ∧ pending_listing (step (from_fresh stored_run) Restart)
    = pending_listing (from_fresh stored_run).
Proof.
  destruct (restart_loses_nothing stored_run) as (Ht & Hc & Hi & _ & Hl).
  { decide_by_computing. }
  split_and!.
  - rewrite Ht. reflexivity.
  - rewrite Hc. reflexivity.
  - unfold dependents_of. rewrite Hi. reflexivity.
  - exact Hl.
Defined.

Section growth.
Lemma step_storable self o :
  well_formed self → save_tasks self = self →
  short_op o = true → storable self → storable (step self o).
Proof.
  intros Hwf Hsync Ho Hs. unfold storable in *.
  destruct (step_effect self o Hwf Hsync)
    as [->|[(n & p & z & deps & dl & -> & _ & Hp & _ & Hperm & _)
       |[(A & x & _ & _ & Hperm & _)
       |[(_ & _ & Ht & _)|(_ & _ & ->)]]]].
  - done.
  - rewrite Hperm. constructor; [|done]. simpl in *. by rewrite Hp in Ho.
  - rewrite Hperm in Hs. by apply Forall_cons in Hs as [_ Hs].
  - rewrite Forall_forall in Hs |- *. intros y Hy.
    assert (entry_task y ∈ entry_task <$> tasks self) as (x & -> & Hin)%list_elem_of_fmap
      by (rewrite <- Ht; by apply list_elem_of_fmap_2).
    by apply Hs.
  - constructor.
Qed.

Lemma step_grows self o D :
  well_formed self → save_tasks self = self → storable self →
  completed_tasks self ⊆ completed_tasks (step self o)
  ∧ dependents_of self D `prefix_of` dependents_of (step self o) D.
Proof.
  intros Hwf Hsync Hs.
  destruct (step_effect self o Hwf Hsync)
    as [->|[(n & p & z & deps & dl & _ & _ & _ & _ & _ & Hc & Hi)
       |[(A & x & _ & _ & _ & Hc & Hi & _)
       |[(_ & _ & _ & _ & Hc & Hi)|(_ & Hn & _)]]]]; [| | | |done].
  - done.
  - rewrite Hc, Hi. split; [done|]. by apply prefix_app_r.
  - unfold dependents_of. rewrite Hc, Hi. split; [|done].
    apply union_subseteq_r.
  - unfold dependents_of. by rewrite Hc, Hi.
Qed.

Lemma run_grows self ops D :
  well_formed self → save_tasks self = self → storable self →
  Forall (λ o, short_op o = true) ops →
  completed_tasks self ⊆ completed_tasks (run self ops)
  ∧ dependents_of self D `prefix_of` dependents_of (run self ops) D.
Proof.
  intros Hwf Hsync Hs Hops. revert self Hwf Hsync Hs.
  induction Hops as [|o ops Ho _ IH]; intros self Hwf Hsync Hs; [done|].
  simpl. destruct (step_grows self o D Hwf Hsync Hs) as [Hc Hi].
  destruct (IH (step self o)) as [Hc' Hi'];
    [by apply step_well_formed|by apply step_synced|by apply step_storable|].
  split; by etrans.
Qed.
End growth.

(** X6. Completion and recorded edges are never taken back while the file
    can be written: along every run that began without a file, restarts
    included, in which no priority of more than 4300 digits is pending or
    added, the completed set only grows and the dependents of every name
    only get longer at the end. *)
Theorem completed_and_edges_only_grow (ops ops' : list op) (D : string) :
  storable (from_fresh ops) →
  Forall (λ o, short_op o = true) ops' →
  completed_tasks (from_fresh ops) ⊆ completed_tasks (from_fresh (ops ++ ops'))
  ∧ dependents_of (from_fresh ops) D
    `prefix_of` dependents_of (from_fresh (ops ++ ops')) D.
Proof.
  intros Hs Hops. rewrite from_fresh_app.
  destruct (from_fresh_well_formed ops) as [Hwf Hsync].
  by apply run_grows.
Qed.

Lemma completed_and_edges_only_grow_witness :
  completed_tasks (from_fresh stored_run)
  ⊆ completed_tasks
      (from_fresh (stored_run ++ [Restart; Add "Fence" (PyStr "3") ["Foundation"] None;
                                  Complete "Walls"; Restart]))
  ∧ dependents_of (from_fresh stored_run) "Foundation"
    `prefix_of` dependents_of
      (from_fresh (stored_run ++ [Restart; Add "Fence" (PyStr "3") ["Foundation"] None;
                                  Complete "Walls"; Restart]))
      "Foundation".
Proof.
  apply (completed_and_edges_only_grow stored_run
           [Restart; Add "Fence" (PyStr "3") ["Foundation"] None;
            Complete "Walls"; Restart] "Foundation");
    decide_by_computing.
Defined.

(** X7. No pending task waits for a name that does not exist: after every
    run that began without a file, each dependency of each pending task is
    the name of a pending task or a completed name. *)
Theorem dependencies_stay_known (ops : list op) (x : entry) (d : string) :
  x ∈ tasks (from_fresh ops) → d ∈ dependencies (entry_task x) →
  known (from_fresh ops) d.
Proof.
  revert x d.
  apply (from_fresh_ind (λ self, ∀ x d, x ∈ tasks self →
           d ∈ dependencies (entry_task x) → known self d)).
  { by intros x d Hx%elem_of_nil. }
  intros self o Hwf Hsync IH x d Hx Hd.
  destruct (step_effect self o Hwf Hsync)
    as [Heq|[(n & p & z & deps & dl & -> & _ & _ & Hk & Hperm & _)
       |[(A & x0 & -> & _ & Hperm & _)
       |[(-> & Hs & Ht & _)|(-> & _ & Heq)]]]].
  - rewrite Heq in Hx |- *. by eapply IH.
  - apply step_known; [done..|by left|]. rewrite Hperm in Hx.
    apply elem_of_cons in Hx as [->|Hx]; [by apply Hk|by eapply IH].
  - apply step_known; [done..|by left|]. eapply IH; [|done].
    rewrite Hperm. by right.
  - apply step_known; [done..|by right|].
    assert (entry_task x ∈ entry_task <$> tasks self) as (y & Hy & Hin)%list_elem_of_fmap
      by (rewrite <- Ht; by apply list_elem_of_fmap_2).
    apply (IH y); [done|]. by rewrite <- Hy.
  - rewrite Heq in Hx. by apply elem_of_nil in Hx.
Qed.

Lemma dependencies_stay_known_witness :
  known (from_fresh [Add "Foundation" (PyInt 1) [] None;
                     Add "Walls" (PyInt 2) ["Foundation"] None])
        "Foundation".
Proof.
  apply (dependencies_stay_known
           [Add "Foundation" (PyInt 1) [] None;
            Add "Walls" (PyInt 2) ["Foundation"] None]
           (2%Z, 2, mkTask "Walls" 2 ["Foundation"] None) "Foundation");
    decide_by_computing.
Defined.

(** X8. No task has a blank name: after every run that began without a
    file, the name of every pending task and every completed name contains
    a character that is not a blank. *)
Theorem names_never_blank (ops : list op) (n : string) :
  known (from_fresh ops) n → whitespace_only n = false.
Proof.
  revert n.
  apply (from_fresh_ind (λ self, ∀ n, known self n → whitespace_only n = false)).
  { intros n [Hn%elem_of_nil|Hn]; [done|]. by apply elem_of_empty in Hn. }
  intros self o Hwf Hsync IH m Hm.
  destruct (step_effect self o Hwf Hsync)
    as [Heq|[(n & p & z & deps & dl & -> & Hw & _ & _ & Hperm & Hc & _)
       |[(A & x0 & -> & Hn & Hperm & Hc & _)
       |[(-> & _ & Ht & _ & Hc & _)|(-> & _ & Heq)]]]];
    unfold known in Hm; cycle 4.
  { rewrite Heq in Hm. simpl in Hm.
    destruct Hm as [Hm%elem_of_nil|Hm]; [done|]. by apply elem_of_empty in Hm. }
  - rewrite Heq in Hm. by apply IH.
  - rewrite Hc, (names_of_perm _ _ Hperm) in Hm. simpl in Hm.
    destruct Hm as [[->|Hm]%elem_of_cons|Hm]; [done|apply IH; by left|apply IH; by right].
  - assert (names_of (tasks self) ≡ₚ A :: names_of (tasks (step self (Complete A))))
      as Hnames.
    { rewrite (names_of_perm _ _ Hperm). simpl. by rewrite Hn. }
    rewrite Hc in Hm.
    destruct Hm as [Hm|[->%elem_of_singleton|Hm]%elem_of_union].
    + apply IH. left. rewrite Hnames. by right.
    + apply IH. left. rewrite Hnames. by left.
    + apply IH. by right.
  - rewrite Hc, (names_of_tasks _ _ Ht) in Hm. by apply IH.
Qed.

Lemma names_never_blank_witness : whitespace_only "Walls" = false.
Proof.
  apply (names_never_blank
           [Add "Foundation" (PyInt 1) [] None;
            Add "Walls" (PyInt 2) ["Foundation"] None] "Walls").
  left. decide_by_computing.
Defined.

(** X9. The dependency index only speaks of tasks that exist: after every
    run that began without a file, when m is recorded as a dependent of D
    then both D and m are names of pending tasks or completed names. *)
Theorem index_names_known (ops : list op) (D m : string) :
  m ∈ dependents_of (from_fresh ops) D →
  known (from_fresh ops) D ∧ known (from_fresh ops) m.
Proof.
  revert D m.
  apply (from_fresh_ind (λ self, ∀ D m, m ∈ dependents_of self D →
           known self D ∧ known self m)).
  { by intros D m Hm%elem_of_nil. }
  intros self o Hwf Hsync IH D m Hm.
  assert (o ≠ Restart ∨ storable self → m ∈ dependents_of self D →
          known (step self o) D ∧ known (step self o) m)
    as Hold.
  { intros Ho [??]%IH. split; by apply step_known. }
  destruct (step_effect self o Hwf Hsync)
    as [Heq|[(n & p & z & deps & dl & -> & _ & _ & Hk & Hperm & _ & Hi)
       |[(A & x0 & -> & _ & _ & _ & Hi & _)
       |[(-> & Hs & _ & _ & _ & Hi)|(-> & _ & Heq)]]]]; cycle 4.
  { rewrite Heq in Hm. by apply elem_of_nil in Hm. }
  - rewrite Heq in *. by apply IH.
  - rewrite Hi in Hm.
    apply elem_of_app in Hm as [Hm|[-> Hlen]%elem_of_replicate];
      [apply Hold; [by left|done]|].
    split.
    + apply step_known; [done..|by left|]. apply Hk.
      destruct (filter (λ d, d = D) deps) as [|d ds] eqn:Hf; [done|].
      assert (d ∈ filter (λ d, d = D) deps) as [-> ?]%list_elem_of_filter
        by (rewrite Hf; by left).
      done.
    + left. rewrite (names_of_perm _ _ Hperm). by left.
  - apply Hold; [by left|]. unfold dependents_of in *. by rewrite <- Hi.
  - apply Hold; [by right|]. unfold dependents_of in *. by rewrite <- Hi.
Qed.

Lemma index_names_known_witness :
  known foundation_walls "Foundation" ∧ known foundation_walls "Walls".
Proof.
  apply (index_names_known
           [Add "Foundation" (PyInt 1) [] None;
            Add "Walls" (PyInt 2) ["Foundation"] None] "Foundation" "Walls").
  decide_by_computing.
Defined.

Section deadlock.
Lemma step_blocked_pair A B self o :
  well_formed self → save_tasks self = self → storable self →
  blocked_pair A B self → keeps_pair A B o → blocked_pair A B (step self o).
Proof.
  intros Hwf Hsync Hs (HA & HB & Hdep & Hall) Hkeep.
  rewrite Forall_forall in Hall.
  destruct (step_effect self o Hwf Hsync)
    as [->|[(n & p & z & deps & dl & -> & _ & _ & _ & Hperm & Hc & Hi)
       |[(A0 & x0 & -> & Hn & Hperm & Hc & Hi & Hown & Hdone)
       |[(-> & _ & Ht & _ & Hc & Hi)|(_ & Hn & _)]]]]; [| | | |done];
    unfold blocked_pair.
  - by rewrite Forall_forall.
  - rewrite Hc, Hi, Hperm. split_and!; [done..| |].
    + apply elem_of_app. by left.
    + constructor; [|by apply Forall_forall]. simpl. intros ->.
      by destruct Hkeep.
  - assert (A0 ≠ A) as HneA.
    { intros ->. by apply HB, Hdone. }
    assert (A0 ≠ B) as HneB.
    { intros ->. apply HA, Hown, Hall; [|done]. rewrite Hperm. by left. }
    rewrite Hc. unfold dependents_of in *. rewrite Hi. split_and!; [| |done|].
    + rewrite not_elem_of_union, not_elem_of_singleton. by split.
    + rewrite not_elem_of_union, not_elem_of_singleton. by split.
    + apply Forall_forall. intros x Hx. apply Hall. rewrite Hperm. by right.
  - rewrite Hc. unfold dependents_of in *. rewrite Hi. split_and!; [done..|].
    apply Forall_forall. intros x Hx Hname.
    assert (entry_task x ∈ entry_task <$> tasks self) as (y & Hy & Hin)%list_elem_of_fmap
      by (rewrite <- Ht; by apply list_elem_of_fmap_2).
    rewrite Hy in *. by apply Hall.
Qed.

Lemma run_blocked_pair A B self ops :
  well_formed self → save_tasks self = self → storable self →
  blocked_pair A B self →
  Forall (λ o, keeps_pair A B o ∧ short_op o = true) ops →
  blocked_pair A B (run self ops).
Proof.
  intros Hwf Hsync Hs Hb Hops. revert self Hwf Hsync Hs Hb.
  induction Hops as [|o ops [Ho Hshort] _ IH]; intros self Hwf Hsync Hs Hb; [done|].
  simpl. apply IH;
    [by apply step_well_formed|by apply step_synced|by apply step_storable
    |by apply step_blocked_pair].
Qed.
End deadlock.

(** X10. Two tasks that wait for each other stay uncompleted. Let B be a
    recorded dependent of A, neither name completed, every pending task
    named B depending on A, in a run that began without a file and leaves
    no pending priority of more than 4300 digits. Then, whatever calls and
    restarts follow, as long as none adds a task named B without A among
    its dependencies or a priority of more than 4300 digits, the same holds
    afterwards: neither A nor B is ever completed. *)
Theorem blocked_pair_is_permanent (A B : string) (ops ops' : list op) :
  blocked_pair A B (from_fresh ops) →
  storable (from_fresh ops) →
  Forall (λ o, keeps_pair A B o ∧ short_op o = true) ops' →
  blocked_pair A B (from_fresh (ops ++ ops'))
  ∧ (A ∉ completed_tasks (from_fresh (ops ++ ops')))
  ∧ (B ∉ completed_tasks (from_fresh (ops ++ ops'))).
Proof.
  intros Hb Hs Hops. rewrite from_fresh_app.
  destruct (from_fresh_well_formed ops) as [Hwf Hsync].
  pose proof (run_blocked_pair A B _ ops' Hwf Hsync Hs Hb Hops) as Hb'.
  split; [done|]. by destruct Hb' as (? & ? & _).
Qed.

Lemma blocked_pair_is_permanent_witness :
  blocked_pair "Foundation" "Walls"
    (from_fresh ([Add "Foundation" (PyInt 1) [] None;
                  Add "Walls" (PyInt 2) ["Foundation"] None]
                 ++ [Complete "Walls"; Complete "Foundation"; Restart;
                     Add "Roof" (PyStr "3") ["Walls"] None; Complete "Foundation"]))
  ∧ ("Foundation"
     ∉ completed_tasks
         (from_fresh ([Add "Foundation" (PyInt 1) [] None;
                       Add "Walls" (PyInt 2) ["Foundation"] None]
                      ++ [Complete "Walls"; Complete "Foundation"; Restart;
                          Add "Roof" (PyStr "3") ["Walls"] None;
                          Complete "Foundation"])))
  ∧ ("Walls"
     ∉ completed_tasks
         (from_fresh ([Add "Foundation" (PyInt 1) [] None;
                       Add "Walls" (PyInt 2) ["Foundation"] None]
                      ++ [Complete "Walls"; Complete "Foundation"; Restart;
                          Add "Roof" (PyStr "3") ["Walls"] None;
                          Complete "Foundation"]))).
Proof.
  apply (blocked_pair_is_permanent "Foundation" "Walls").
  - unfold blocked_pair. split_and!; decide_by_computing.
  - decide_by_computing.
  - repeat first [apply Forall_nil_2 | apply Forall_cons_2];
      try (split; [exact I|reflexivity]).
    split; [|reflexivity]. left. discriminate.
Defined.

(** ** X11-X12: the bulk check and the missing file *)

Section bulk_check.
Context (self : TaskManager).

Local Abbreviation report :=
  (λ x : entry, (name (entry_task x), (is_task_executable self (entry_task x)).2)).

Lemma check_loop l executable_tasks non_executable_tasks :
  foldl (λ '(executable_tasks, non_executable_tasks) x,
           let t := entry_task x in
           let '(is_executable, pending_deps) := is_task_executable self t in
           if is_executable then (executable_tasks ++ [name t], non_executable_tasks)
           else (executable_tasks, non_executable_tasks ++ [(name t, pending_deps)]))
        (executable_tasks, non_executable_tasks) l
  = (executable_tasks ++ names_of (filter (executable self) l),
     non_executable_tasks ++ (report <$> filter (λ x, ¬ executable self x) l)).
Proof.
  revert executable_tasks non_executable_tasks.
  induction l as [|x l IH]; intros ex nonex; simpl.
  { by rewrite !app_nil_r. }
  destruct (is_task_executable self (entry_task x)) as [[|] pending] eqn:He;
    simpl; rewrite IH.
  - assert (executable self x) as Hx by (unfold executable; by rewrite He).
    rewrite filter_cons_True, filter_cons_False by tauto.
    unfold names_of. by rewrite fmap_cons, <- app_assoc.
  - assert (¬ executable self x) as Hx by (unfold executable; by rewrite He).
    rewrite filter_cons_False, filter_cons_True by done.
    by rewrite fmap_cons, He, <- app_assoc.
Qed.

End bulk_check.

(** X11. [check_task_executability] sorts every pending task into exactly
    one of its two lists and changes nothing: the first list holds, in
    stored order, the names of the tasks whose dependencies are all
    completed; the second holds, in stored order, the other tasks, each
    with its list of dependencies that are not completed, which is never
    empty; together the two lists name the pending tasks, each as often as
    it is pending. *)
Theorem check_task_executability_partition (self : TaskManager) :
  (check_task_executability self).1
  = names_of (filter (executable self) (tasks self))
  ∧ (check_task_executability self).2
    = (λ x, (name (entry_task x), (is_task_executable self (entry_task x)).2))
      <$> filter (λ x, ¬ executable self x) (tasks self)
  ∧ (check_task_executability self).1 ++ (check_task_executability self).2.*1
    ≡ₚ names_of (tasks self)
  ∧ Forall (λ nd, nd.2 ≠ []) (check_task_executability self).2.
Proof.
  unfold check_task_executability. rewrite check_loop. simpl.
  split_and!; [done..| |].
  - rewrite <- list_fmap_compose. unfold names_of.
    rewrite <- fmap_app. by rewrite filter_app_complement.
  - apply Forall_fmap, Forall_forall.
    intros x [Hx _]%list_elem_of_filter. simpl. intros Hnil.
    by apply Hx, is_task_executable_flag.
Qed.

(** X12. A missing file and a file that is not valid JSON are treated
    alike: the manager starts with no pending task, nothing completed, an
    empty index and counter 0, and writes the empty snapshot at once; a
    program started again on the file just written finds the same empty
    manager. Outside the constructor, [load_tasks] on such a file empties
    the three collections of any object but leaves its counter alone. *)
Theorem load_without_usable_file (f : file) (self : TaskManager) :
  f = Missing ∨ f = Corrupt →
  TaskManager_init f = mkTaskManager [] ∅ ∅ 0 (Stored empty_snapshot)
  ∧ TaskManager_init (disk (TaskManager_init f)) = TaskManager_init f
  ∧ (disk self = f →
     load_tasks self = mkTaskManager [] ∅ ∅ (counter self) (Stored empty_snapshot)).
Proof.
  assert (elements (∅ : gset string) = []) as Hel by apply elements_empty.
  intros [->| ->]; unfold TaskManager_init, load_tasks, save_tasks, empty_snapshot;
    simpl; rewrite Hel; (split_and!; [done..|]); by intros ->.
Qed.

Lemma load_without_usable_file_witness :
  TaskManager_init Corrupt = mkTaskManager [] ∅ ∅ 0 (Stored empty_snapshot)
  ∧ TaskManager_init (disk (TaskManager_init Corrupt)) = TaskManager_init Corrupt
  ∧ (disk (mkTaskManager (tasks one_task) ∅ ∅ 7 Corrupt) = Corrupt →
     load_tasks (mkTaskManager (tasks one_task) ∅ ∅ 7 Corrupt)
     = mkTaskManager [] ∅ ∅ (counter (mkTaskManager (tasks one_task) ∅ ∅ 7 Corrupt))
         (Stored empty_snapshot)).
Proof.
  apply (load_without_usable_file Corrupt (mkTaskManager (tasks one_task) ∅ ∅ 7 Corrupt)).
  by right.
Defined.

(** ** X13-X14: the dependency line typed at the menu *)

Section dependency_line.
Implicit Types (s n w : string) (c : ascii) (sp : ascii → bool).

Lemma rstrip_idemp sp s : rstrip sp (rstrip sp s) = rstrip sp s.
Proof.
  induction s as [|c s IH]; [done|]. simpl.
  destruct (rstrip sp s) as [|d r] eqn:Hr.
  - destruct (sp c) eqn:Hc; [done|]. simpl. by rewrite Hc.
  - simpl in *. by rewrite IH.
Qed.

Lemma rstrip_head sp c s :
  sp c = false → ∃ r, rstrip sp (String c s) = String c r.
Proof.
  intros Hc. simpl. rewrite Hc. destruct (rstrip sp s); by eexists.
Qed.

Lemma lstrip_cases sp s :
  lstrip sp s = EmptyString
  ∨ ∃ c r, lstrip sp s = String c r ∧ sp c = false.
Proof.
  induction s as [|c s IH]; simpl; [by left|].
  destruct (sp c) eqn:Hc; [done|]. right. by exists c, s.
Qed.

Lemma strip_idemp s : strip (strip s) = strip s.
Proof.
  unfold strip. destruct (lstrip_cases is_space s) as [->|(c & r & -> & Hc)];
    [done|].
  destruct (rstrip_head is_space c r Hc) as [r' Hr]. rewrite Hr.
  simpl lstrip. rewrite Hc, <- Hr. apply rstrip_idemp.
Qed.

Lemma strip_not_blank s :
  strip s ≠ EmptyString → whitespace_only (strip s) = false.
Proof.
  intros Hs. destruct (whitespace_only (strip s)) eqn:Hw; [|done].
  apply strip_empty_iff in Hw. by rewrite strip_idemp in Hw.
Qed.

Lemma contains_lstrip sp c s :
  contains c s = false → contains c (lstrip sp s) = false.
Proof.
  induction s as [|c' s IH]; simpl; [done|].
  intros [? ?]%orb_false_iff. destruct (sp c'); [by apply IH|].
  simpl. by apply orb_false_iff.
Qed.

Lemma contains_rstrip sp c s :
  contains c s = false → contains c (rstrip sp s) = false.
Proof.
  induction s as [|c' s IH]; simpl; [done|].
  intros [Hc Hs]%orb_false_iff. specialize (IH Hs).
  destruct (rstrip sp s) as [|d r].
  - destruct (sp c'); [done|]. simpl. by rewrite Hc.
  - simpl in *. by rewrite Hc, IH.
Qed.

Lemma split_pieces sep s : Forall (λ w, contains sep w = false) (split sep s).
Proof.
  induction s as [|c s IH]; simpl; [by repeat constructor|].
  case_bool_decide as Hc; [by constructor|].
  destruct (split sep s) as [|piece pieces]; [repeat constructor|].
  - simpl. by rewrite bool_decide_eq_false_2.
  - apply Forall_cons in IH as [Hp Hps]. constructor; [|done].
    simpl. by rewrite bool_decide_eq_false_2.
Qed.

Lemma split_no_separator sep n : contains sep n = false → split sep n = [n].
Proof.
  induction n as [|c n IH]; simpl; [done|].
  intros [Hc Hn]%orb_false_iff. apply bool_decide_eq_false in Hc.
  rewrite bool_decide_eq_false_2 by done. by rewrite IH.
Qed.

Lemma split_first sep n rest :
  contains sep n = false →
  split sep (n +:+ String sep rest) = n :: split sep rest.
Proof.
  induction n as [|c n IH]; simpl.
  { intros _. by rewrite bool_decide_eq_true_2. }
  intros [Hc Hn]%orb_false_iff. apply bool_decide_eq_false in Hc.
  rewrite bool_decide_eq_false_2 by done. by rewrite IH.
Qed.

(** The pieces of a line written with [", ".join]. *)
Lemma split_join x l :
  Forall (λ n, contains ","%char n = false) (x :: l) →
  split ","%char (join ", " (x :: l)) = x :: (String " "%char <$> l).
Proof.
  revert x. induction l as [|y l IH]; intros x Hall.
  { apply split_no_separator. by apply Forall_cons in Hall as [? _]. }
  apply Forall_cons in Hall as [Hx Hall].
  change (join ", " (x :: y :: l))
    with (x +:+ String ","%char (String " "%char (join ", " (y :: l)))).
  rewrite split_first by done. f_equal.
  change (split ","%char (String " "%char (join ", " (y :: l))))
    with (match split ","%char (join ", " (y :: l)) with
          | piece :: pieces => String " "%char piece :: pieces
          | [] => [String " "%char EmptyString]
          end).
  by rewrite IH.
Qed.
End dependency_line.

(** X13. Whatever is typed on the dependency line of the menu, every
    dependency handed to [add_task] is free of commas, is not blank, and
    has no blank at either end (stripping it again changes nothing); so a
    task whose name contains a comma, or begins or ends with a blank, can
    never be named as a dependency at the menu. A line of blanks and commas
    gives no dependency at all. *)
Theorem parse_dependencies_clean (dependencias : string) :
  Forall (λ dep, contains ","%char dep = false
                 ∧ whitespace_only dep = false
                 ∧ strip dep = dep)
         (parse_dependencies dependencias)
  ∧ (∀ n, (contains ","%char n = true ∨ strip n ≠ n) →
          n ∉ parse_dependencies dependencias)
  ∧ (Forall (λ w, whitespace_only w = true) (split ","%char dependencias) →
     parse_dependencies dependencias = []).
Proof.
  assert (Forall (λ dep, contains ","%char dep = false
                         ∧ whitespace_only dep = false ∧ strip dep = dep)
                 (parse_dependencies dependencias)) as Hclean.
  { unfold parse_dependencies. apply Forall_fmap, Forall_forall.
    intros w [Hw Hin]%list_elem_of_filter. simpl. split_and!.
    - apply contains_rstrip, contains_lstrip.
      pose proof (split_pieces ","%char dependencias) as Hp.
      rewrite Forall_forall in Hp. by apply Hp.
    - by apply strip_not_blank.
    - apply strip_idemp. }
  split_and!; [done| |].
  - intros n Hn Hin. rewrite Forall_forall in Hclean.
    destruct (Hclean n Hin) as (Hc & _ & Hs). destruct Hn; congruence.
  - intros Hall. unfold parse_dependencies.
    rewrite (proj2 (filter_nil_iff _ _)); [done|].
    intros w Hw Hne. rewrite Forall_forall in Hall.
    apply Hne, strip_empty_iff. by apply Hall.
Qed.

(** X14. The list of names that the dependency error message prints,
    joined with a comma and a blank, can be typed back at the menu: for
    names without comma, not empty and without blanks at their ends, the
    dependency line made with [", ".join] is read as exactly those names,
    in order. *)
Theorem parse_dependencies_join (names : list string) :
  Forall (λ n, contains ","%char n = false ∧ n ≠ EmptyString ∧ strip n = n) names →
  parse_dependencies (join ", " names) = names.
Proof.
  intros Hall. destruct names as [|x l]; [done|].
  unfold parse_dependencies. rewrite split_join; cycle 1.
  { eapply Forall_impl; [exact Hall|]. by intros n (? & _). }
  apply Forall_cons in Hall as [(_ & Hx & Hsx) Hall].
  rewrite filter_cons_True by (by rewrite Hsx). rewrite fmap_cons, Hsx. f_equal.
  induction Hall as [|y l (_ & Hy & Hsy) _ IH]; [done|].
  rewrite fmap_cons.
  assert (strip (String " "%char y) = y) as Hs by exact Hsy.
  rewrite filter_cons_True by (by rewrite Hs). by rewrite fmap_cons, Hs, IH.
Qed.

Lemma parse_dependencies_join_witness :
  parse_dependencies (join ", " ["Build wall"; "Paint"]) = ["Build wall"; "Paint"].
Proof.
  apply (parse_dependencies_join ["Build wall"; "Paint"]).
  repeat first [apply Forall_nil_2 | apply Forall_cons_2]; by split_and!.
Defined.

(** ** X15: the pending list is a heap *)

Section heap_order.
Implicit Types (heap v : list entry) (x y z newitem : entry).

Lemma key_le_refl x : key_le x x.
Proof. right. split; [done|lia]. Qed.

Lemma key_le_trans x y z : key_le x y → key_le y z → key_le x z.
Proof. unfold key_le. intros [?|[? ?]] [?|[? ?]]; [left; lia..|right; split; lia]. Qed.

Lemma entry_lt_true x y : entry_lt x y = Some true → key_le x y.
Proof.
  destruct x as [[px cx] tx], y as [[py cy] ty]. unfold entry_lt, key_le.
  unfold entry_priority, entry_counter. simpl.
  repeat case_decide; intros Hlt; try discriminate Hlt;
    apply (inj Some) in Hlt.
  - right. apply Nat.ltb_lt in Hlt. split; [done|lia].
  - left. by apply Z.ltb_lt in Hlt.
Qed.

Lemma entry_lt_false x y : entry_lt x y = Some false → key_le y x.
Proof.
  destruct x as [[px cx] tx], y as [[py cy] ty]. unfold entry_lt, key_le.
  unfold entry_priority, entry_counter. simpl.
  repeat case_decide; intros Hlt; try discriminate Hlt;
    apply (inj Some) in Hlt.
  - right. split; [done|]. subst. lia.
  - right. apply Nat.ltb_ge in Hlt. split; [done|lia].
  - apply Z.ltb_ge in Hlt.
    destruct (decide (py = px)); [|left; lia]. congruence.
Qed.

Lemma parent_spec j : 0 < j → j = 2 * parent j + 1 ∨ j = 2 * parent j + 2.
Proof.
  intros Hj. unfold parent. rewrite Nat.shiftr_div_pow2. change (2 ^ 1) with 2.
  pose proof (Nat.div_mod_eq (j - 1) 2) as Hdiv.
  pose proof (Nat.mod_upper_bound (j - 1) 2 ltac:(lia)). lia.
Qed.

Lemma parent_left pos : parent (2 * pos + 1) = pos.
Proof. pose proof (parent_spec (2 * pos + 1) ltac:(lia)). lia. Qed.

Lemma parent_right pos : parent (2 * pos + 1 + 1) = pos.
Proof. pose proof (parent_spec (2 * pos + 1 + 1) ltac:(lia)). lia. Qed.

Lemma descends_le s j : descends s j → s ≤ j.
Proof.
  induction 1 as [|j Hj _ IH]; [done|].
  pose proof (parent_spec j Hj). lia.
Qed.

Lemma descends_parent s j : descends s j → s < j → descends s (parent j).
Proof. destruct 1; [lia|done]. Qed.

Lemma descends_root j : descends 0 j.
Proof.
  induction (lt_wf j) as [j _ IH]. destruct j as [|j]; [constructor|].
  apply descends_below; [lia|]. apply IH.
  pose proof (parent_spec (S j) ltac:(lia)). lia.
Qed.
End heap_order.

Section siftdown_heap.
Implicit Types (heap v : list entry) (x y z newitem : entry).

Lemma sifting_down_step heap newitem p startpos pos :
  startpos < pos → pos < length heap →
  heap !! parent pos = Some p → key_le newitem p →
  descends startpos pos →
  sifting_down startpos pos (<[pos := newitem]> heap) →
  sifting_down startpos (parent pos)
    (<[parent pos := newitem]> (<[pos := p]> heap)).
Proof.
  intros Hlt Hlen Hp Hle Hdesc [Ha Hb].
  pose proof (parent_spec pos ltac:(lia)) as Hpos.
  set (pp := parent pos) in *.
  set (v := <[pos := newitem]> heap) in *.
  set (v' := <[pp := newitem]> (<[pos := p]> heap)).
  assert (∀ k, k ≠ pp → k ≠ pos → v' !! k = v !! k) as Hsame.
  { intros k ??. unfold v', v. by rewrite !list_lookup_insert_ne. }
  assert (v' !! pp = Some newitem) as Hv'pp.
  { unfold v'. apply list_lookup_insert_eq. rewrite length_insert. lia. }
  assert (v' !! pos = Some p) as Hv'pos.
  { unfold v'. rewrite list_lookup_insert_ne by lia.
    by apply list_lookup_insert_eq. }
  assert (v !! pp = Some p) as Hvpp.
  { unfold v. by rewrite list_lookup_insert_ne by lia. }
  split.
  - intros j x y Hj Hs Hne Hy Hx.
    pose proof (parent_spec j Hj) as Hpj.
    destruct (decide (j = pos)) as [->|Hjpos].
    { fold pp in Hx. rewrite Hv'pos in Hy. rewrite Hv'pp in Hx. by simplify_eq. }
    rewrite Hsame in Hy by done.
    destruct (decide (parent j = pp)) as [Heq|Hnpp].
    { rewrite Heq, Hv'pp in Hx. simplify_eq.
      apply (key_le_trans _ p); [done|].
      apply (Ha j p y); try done. by rewrite Heq. }
    destruct (decide (parent j = pos)) as [Heq|Hnpos].
    { rewrite Heq, Hv'pos in Hx. simplify_eq. by apply (Hb Hlt j x y). }
    rewrite Hsame in Hx by done. by apply (Ha j x y).
  - intros Hs j x y Hj Hpj Hy Hx.
    pose proof (parent_spec pp ltac:(lia)) as Hppp.
    pose proof (descends_le _ _ (descends_parent _ _
                  (descends_parent _ _ Hdesc Hlt) Hs)) as Hgrand.
    rewrite Hsame in Hx by lia.
    assert (key_le x p) as Hxp by (apply (Ha pp x p); try done; lia).
    destruct (decide (j = pos)) as [->|Hjpos].
    { rewrite Hv'pos in Hy. by simplify_eq. }
    pose proof (parent_spec j Hj).
    rewrite Hsame in Hy by lia.
    apply (key_le_trans _ p); [done|].
    apply (Ha j p y); try done; [lia|]. by rewrite Hpj.
Qed.

Lemma siftdown_loop_heap fuel heap newitem startpos pos :
  pos ≤ fuel → pos < length heap →
  (∀ x, x ∈ heap → is_Some (entry_lt newitem x)) →
  descends startpos pos →
  sifting_down startpos pos (<[pos := newitem]> heap) →
  ∃ heap', siftdown_loop fuel heap newitem startpos pos = HeapOk heap'
           ∧ heap_from startpos heap' ∧ length heap' = length heap.
Proof.
  revert heap pos.
  induction fuel as [|fuel IH]; intros heap pos Hfuel Hlen Hcmp Hdesc Hinv;
    cbn [siftdown_loop].
  { eexists. split; [done|]. split; [|by rewrite length_insert].
    intros j x y Hj Hs Hy Hx. apply (proj1 Hinv j x y); try done. lia. }
  assert (¬ startpos < pos → heap_from startpos (<[pos := newitem]> heap)) as Hend.
  { intros Hn j x y Hj Hs Hy Hx. apply (proj1 Hinv j x y); try done.
    pose proof (parent_spec j Hj). lia. }
  case_decide as Hlt; cycle 1.
  { eexists. split; [done|]. split; [by apply Hend|by rewrite length_insert]. }
  pose proof (parent_spec pos ltac:(lia)) as Hpos. fold (parent pos).
  destruct (lookup_lt_is_Some_2 heap (parent pos)) as [p Hp]; [lia|].
  rewrite Hp.
  destruct (Hcmp p) as [[|] Hb]; [by eapply list_elem_of_lookup_2| |];
    rewrite Hb.
  - destruct (IH (<[pos := p]> heap) (parent pos)) as (heap' & -> & Hh & Hl).
    + lia.
    + rewrite length_insert. lia.
    + intros x Hx. apply Hcmp. eapply insert_subseteq; [|done].
      by eapply list_elem_of_lookup_2.
    + by apply descends_parent.
    + apply sifting_down_step; try done. by apply entry_lt_true.
    + eexists. split; [done|]. split; [done|]. by rewrite Hl, length_insert.
  - eexists. split; [done|]. split; [|by rewrite length_insert].
    intros j x y Hj Hs Hy Hx.
    destruct (decide (j = pos)) as [->|Hne]; [|by apply (proj1 Hinv j x y)].
    rewrite list_lookup_insert_eq in Hy by done.
    rewrite list_lookup_insert_ne in Hx by lia. simplify_eq.
    by apply entry_lt_false.
Qed.

Lemma _siftdown_heap heap startpos pos :
  pos < length heap → comparable heap → descends startpos pos →
  sifting_down startpos pos heap →
  ∃ heap', _siftdown heap startpos pos = HeapOk heap'
           ∧ heap_from startpos heap' ∧ length heap' = length heap.
Proof.
  intros Hpos Hcmp Hdesc Hinv. unfold _siftdown.
  destruct (lookup_lt_is_Some_2 heap pos Hpos) as [newitem Hn]. rewrite Hn.
  apply siftdown_loop_heap; try done.
  - intros x Hx. apply Hcmp; [by eapply list_elem_of_lookup_2|done].
  - by rewrite list_insert_id.
Qed.

Lemma heappush_heap heap item :
  comparable (heap ++ [item]) → is_heap heap →
  ∃ heap', heappush heap item = HeapOk heap' ∧ is_heap heap'.
Proof.
  intros Hcmp Hheap. unfold heappush.
  destruct (_siftdown_heap (heap ++ [item]) 0 (length (heap ++ [item]) - 1))
    as (heap' & -> & Hh & _); try done.
  - rewrite length_app. simpl. lia.
  - apply descends_root.
  - rewrite length_app. simpl. replace (length heap + 1 - 1) with (length heap) by lia.
    split.
    + intros j x y Hj _ Hne Hy Hx. pose proof (parent_spec j Hj).
      assert (j < length heap) as Hjl.
      { apply lookup_lt_Some in Hy. rewrite length_app in Hy. simpl in Hy. lia. }
      rewrite lookup_app_l in Hy, Hx by lia. by apply (Hheap j x y); [|lia|..].
    + intros _ j x y Hj Hpj Hy _. pose proof (parent_spec j Hj).
      apply lookup_lt_Some in Hy. rewrite length_app in Hy. simpl in Hy. lia.
  - by eexists.
Qed.
End siftdown_heap.

Section siftup_heap.
Implicit Types (heap v : list entry) (x y z newitem child : entry).

Lemma right_is_smaller_choice heap pos b :
  comparable heap → 2 * pos + 1 < length heap →
  right_is_smaller heap (length heap) (2 * pos + 1) = Return b →
  ∃ c child,
    c = (if b then 2 * pos + 1 + 1 else 2 * pos + 1)
    ∧ c < length heap ∧ parent c = pos ∧ heap !! c = Some child
    ∧ ∀ j y, 0 < j → parent j = pos → j ≠ c → heap !! j = Some y → key_le child y.
Proof.
  intros Hcmp Hleft. unfold right_is_smaller.
  destruct (lookup_lt_is_Some_2 heap (2 * pos + 1) Hleft) as [l Hl].
  case_decide as Hright.
  - destruct (lookup_lt_is_Some_2 heap (2 * pos + 1 + 1) Hright) as [r Hr].
    rewrite Hl, Hr.
    destruct (Hcmp l r) as [[|] Hlt]; [by eapply list_elem_of_lookup_2..| |];
      rewrite Hlt; intros [= <-]; cbn [negb].
    + exists (2 * pos + 1), l.
      split; [done|]. split; [done|]. split; [apply parent_left|]. split; [done|].
      intros j y Hj Hpj Hne Hy. pose proof (parent_spec j Hj).
      assert (j = 2 * pos + 1 + 1) as -> by lia.
      rewrite Hr in Hy. simplify_eq. by apply entry_lt_true.
    + exists (2 * pos + 1 + 1), r.
      split; [done|]. split; [done|]. split; [apply parent_right|]. split; [done|].
      intros j y Hj Hpj Hne Hy. pose proof (parent_spec j Hj).
      assert (j = 2 * pos + 1) as -> by lia.
      rewrite Hl in Hy. simplify_eq. by apply entry_lt_false.
  - intros [= <-]. exists (2 * pos + 1), l.
    split; [done|]. split; [done|]. split; [apply parent_left|]. split; [done|].
    intros j y Hj Hpj Hne Hy. pose proof (parent_spec j Hj).
    apply lookup_lt_Some in Hy. lia.
Qed.

Lemma sifting_up_step heap newitem child startpos pos c :
  startpos ≤ pos → pos < length heap → c < length heap → parent c = pos → 0 < c →
  heap !! c = Some child →
  (∀ j y, 0 < j → parent j = pos → j ≠ c → heap !! j = Some y → key_le child y) →
  sifting_up startpos pos (<[pos := newitem]> heap) →
  sifting_up startpos c (<[c := newitem]> (<[pos := child]> heap)).
Proof.
  intros Hs Hlen Hclen Hpc Hc Hchild Hsib [Hi Hii].
  pose proof (parent_spec c Hc) as Hcspec.
  set (v := <[pos := newitem]> heap) in *.
  set (v' := <[c := newitem]> (<[pos := child]> heap)).
  assert (∀ k, k ≠ c → k ≠ pos → v' !! k = v !! k) as Hsame.
  { intros k ??. unfold v', v. by rewrite !list_lookup_insert_ne. }
  assert (∀ k, k ≠ pos → v !! k = heap !! k) as Hheap.
  { intros k ?. unfold v. by rewrite list_lookup_insert_ne. }
  assert (v' !! pos = Some child) as Hv'pos.
  { unfold v'. rewrite list_lookup_insert_ne by lia.
    by apply list_lookup_insert_eq. }
  assert (v !! c = Some child) as Hvc by (rewrite Hheap by lia; done).
  split.
  - intros j x y Hj Hsj Hne Hnp Hy Hx. pose proof (parent_spec j Hj) as Hjs.
    destruct (decide (j = pos)) as [->|Hjpos].
    { rewrite Hv'pos in Hy. simplify_eq. rewrite Hsame in Hx by lia.
      by apply (Hii ltac:(lia) c x y). }
    rewrite Hsame in Hy by done.
    destruct (decide (parent j = pos)) as [Heq|Hnpos].
    { rewrite Heq, Hv'pos in Hx. simplify_eq.
      apply (Hsib j y); try done. by rewrite <- Hheap. }
    rewrite Hsame in Hx by done. by apply (Hi j x y).
  - intros Hsc j x y Hj Hpj Hy Hx. pose proof (parent_spec j Hj) as Hjs.
    rewrite Hpc, Hv'pos in Hx. injection Hx as <-.
    rewrite Hsame in Hy by lia.
    apply (Hi j child y); try done; [lia..|]. by rewrite Hpj.
Qed.

Lemma siftup_loop_heap fuel heap newitem startpos pos :
  length heap - pos ≤ fuel → pos < length heap →
  comparable (newitem :: heap) → descends startpos pos →
  sifting_up startpos pos (<[pos := newitem]> heap) →
  ∃ heap', siftup_loop fuel heap newitem startpos (length heap) pos = HeapOk heap'
           ∧ heap_from startpos heap' ∧ length heap' = length heap.
Proof.
  revert heap pos.
  induction fuel as [|fuel IH]; intros heap pos Hfuel Hpos Hcmp Hdesc Hinv;
    cbn [siftup_loop]; [lia|].
  assert (comparable heap) as Hcmp'
    by (eapply comparable_subseteq; [|exact Hcmp]; set_solver).
  case_decide as Hchild; cycle 1.
  { destruct (_siftdown_heap (<[pos := newitem]> heap) startpos pos)
      as (heap' & -> & Hh & Hl); try done.
    - by rewrite length_insert.
    - eapply comparable_subseteq; [|exact Hcmp].
      intros x [->|Hx]%elem_of_insert_inv; set_solver.
    - destruct Hinv as [Hi Hii]. split; [|done].
      intros j x y Hj Hs Hne Hy Hx. pose proof (parent_spec j Hj).
      apply (Hi j x y); try done. intros Hpj.
      apply lookup_lt_Some in Hy. rewrite length_insert in Hy. lia.
    - eexists. split; [done|]. split; [done|]. by rewrite Hl, length_insert. }
  destruct (right_is_smaller_ok heap (2 * pos + 1) Hchild Hcmp') as [b Hb].
  rewrite Hb.
  destruct (right_is_smaller_choice heap pos b Hcmp' Hchild Hb)
    as (c & child & -> & Hclen & Hpc & Hlc & Hsib).
  rewrite Hlc.
  assert (0 < (if b then 2 * pos + 1 + 1 else 2 * pos + 1)
          ∧ pos < (if b then 2 * pos + 1 + 1 else 2 * pos + 1)) as [Hc0 Hcpos]
    by (destruct b; lia).
  set (c := if b then 2 * pos + 1 + 1 else 2 * pos + 1) in *.
  destruct (IH (<[pos := child]> heap) c) as (heap' & Heq & Hh & Hl).
  - rewrite length_insert. lia.
  - by rewrite length_insert.
  - eapply comparable_subseteq; [|exact Hcmp].
    intros x [->|Hx]%elem_of_cons; [set_solver|].
    apply elem_of_cons; right. eapply insert_subseteq; [|done].
    by eapply list_elem_of_lookup_2.
  - apply descends_below; [done|]. by rewrite Hpc.
  - apply sifting_up_step; try done. by apply descends_le.
  - rewrite length_insert in Heq. rewrite Heq.
    eexists. split; [done|]. split; [done|]. by rewrite Hl, length_insert.
Qed.

Lemma _siftup_heap heap pos :
  pos < length heap → comparable heap → heap_from (pos + 1) heap →
  ∃ heap', _siftup heap pos = HeapOk heap'
           ∧ heap_from pos heap' ∧ length heap' = length heap.
Proof.
  intros Hpos Hcmp Hheap. unfold _siftup.
  destruct (lookup_lt_is_Some_2 heap pos Hpos) as [newitem Hn]. rewrite Hn.
  apply siftup_loop_heap; try done.
  - lia.
  - eapply comparable_subseteq; [|exact Hcmp].
    intros x [->|Hx]%elem_of_cons; [by eapply list_elem_of_lookup_2|done].
  - constructor.
  - rewrite list_insert_id by done. split; [|lia].
    intros j x y Hj Hs Hne Hnp Hy Hx. apply (Hheap j x y); try done. lia.
Qed.

Lemma heapify_loop_heap (x : list entry) k heap0 :
  comparable x → heap0 ≡ₚ x → k ≤ length x → heap_from k heap0 →
  ∃ heap,
    foldl (λ acc i, match acc with
                    | HeapOk heap => _siftup heap i
                    | HeapRaise e heap => HeapRaise e heap
                    end) (HeapOk heap0) (reverse (seq 0 k)) = HeapOk heap
    ∧ is_heap heap.
Proof.
  intros Hcmp. revert heap0. induction k as [|k IH]; intros heap0 Hp Hk Hh.
  { by eexists. }
  rewrite seq_S, reverse_snoc. simpl.
  assert (comparable heap0) as Hcmp0 by by eapply comparable_perm.
  assert (k < length heap0) as Hlen by (rewrite Hp; lia).
  destruct (_siftup_ok heap0 k Hlen Hcmp0) as (heap1 & Heq & Hp1).
  destruct (_siftup_heap heap0 k Hlen Hcmp0) as (heap1' & Heq' & Hh1 & _).
  { by replace (k + 1) with (S k) by lia. }
  rewrite Heq in Heq'. simplify_eq. rewrite Heq.
  apply IH; [by rewrite Hp1|lia|done].
Qed.

Lemma heapify_heap (x : list entry) :
  comparable x → ∃ heap, heapify x = HeapOk heap ∧ is_heap heap.
Proof.
  intros Hcmp. apply (heapify_loop_heap x); [done..| |].
  - pose proof (Nat.Div0.div_le_upper_bound (length x) 2 (length x)). lia.
  - intros j a b Hj Hs Hy _. pose proof (parent_spec j Hj).
    pose proof (Nat.div_mod_eq (length x) 2).
    pose proof (Nat.mod_upper_bound (length x) 2 ltac:(lia)).
    apply lookup_lt_Some in Hy. lia.
Qed.
End siftup_heap.

Section heap_runs.
Lemma heap_root_min l j x y :
  is_heap l → l !! 0 = Some x → l !! j = Some y → key_le x y.
Proof.
  intros Hheap Hx. revert y. induction (lt_wf j) as [j _ IH]. intros y Hy.
  destruct (decide (j = 0)) as [->|Hj].
  { rewrite Hx in Hy. simplify_eq. apply key_le_refl. }
  pose proof (parent_spec j ltac:(lia)) as Hp.
  destruct (lookup_lt_is_Some_2 l (parent j)) as [z Hz].
  { apply lookup_lt_Some in Hy. lia. }
  apply (key_le_trans _ z).
  - apply (IH (parent j)); [lia|done].
  - apply (Hheap j z y); [lia..|done|done].
Qed.

Lemma restart_tasks self :
  save_tasks self = self →
  tasks (step self Restart)
  = imap (λ index t, (priority t, index, t)) (entry_task <$> tasks self)
  ∨ tasks (step self Restart) = [].
Proof.
  intros Hsync. destruct (restart_cases self Hsync) as [[_ ->]|[_ ->]];
    [by left|by right].
Qed.

Lemma reload_heap l :
  is_heap l → priorities_agree l →
  is_heap (imap (λ index t, (priority t, index, t)) (entry_task <$> l)).
Proof.
  intros Hheap Hag j x' y' Hj _ Hy Hx.
  rewrite list_lookup_imap, list_lookup_fmap in Hy, Hx.
  destruct (l !! j) as [y|] eqn:Hly; [|done].
  destruct (l !! parent j) as [x|] eqn:Hlx; [|done].
  simpl in Hy, Hx. simplify_eq.
  pose proof (Hheap j x y Hj ltac:(lia) Hly Hlx) as Hle.
  unfold priorities_agree in Hag. rewrite Forall_forall in Hag.
  pose proof (Hag x (list_elem_of_lookup_2 _ _ _ Hlx)) as Hax.
  pose proof (Hag y (list_elem_of_lookup_2 _ _ _ Hly)) as Hay.
  pose proof (parent_spec j Hj).
  unfold key_le, entry_priority, entry_counter in *. simpl in *.
  destruct Hle as [?|[? ?]]; [left; congruence|right; split; [congruence|lia]].
Qed.

Lemma step_heap self o :
  well_formed self → save_tasks self = self →
  is_heap (tasks self) → priorities_agree (tasks self) →
  is_heap (tasks (step self o)).
Proof.
  intros Hwf Hsync Hheap Hag. destruct o as [n p deps dl|A|].
  - simpl. destruct (whitespace_only n) eqn:Hw.
    { by rewrite add_task_blank_name. }
    destruct (py_int p) as [z|e] eqn:Hp; cycle 1.
    { unfold add_task. rewrite name_check_false, Hp by done. by destruct e. }
    destruct (filter (unknown self) deps) as [|d ds] eqn:Hf; cycle 1.
    { rewrite (add_task_unknown _ _ _ _ _ z); [done..|]. by rewrite Hf. }
    rewrite (add_task_pushes _ _ _ _ _ z) by done.
    destruct (heappush_heap (tasks self) (z, counter self + 1, mkTask n z deps dl))
      as (heap & -> & Hh); [by apply well_formed_push_comparable|done..].
  - simpl.
    destruct (list_find (λ x : entry, name (entry_task x) = A) (tasks self))
      as [[index x]|] eqn:Hf; [|by rewrite complete_task_not_found].
    rewrite (complete_task_found _ _ index x Hf).
    destruct (filter _ (dependencies _)); [|done].
    destruct (filter _ (dependents_of _ _)); [|done].
    destruct (heapify_heap (delete index (tasks self))) as (heap & -> & Hh); [|done].
    eapply comparable_subseteq; [apply list_subseteq_delete|].
    by apply well_formed_comparable.
  - destruct (restart_tasks self Hsync) as [-> | ->]; [by apply reload_heap|].
    intros j x y _ _ Hy. by rewrite lookup_nil in Hy.
Qed.

Lemma from_fresh_heap ops : is_heap (tasks (from_fresh ops)).
Proof.
  apply (from_fresh_ind (λ self, is_heap (tasks self) ∧ priorities_agree (tasks self))).
  - change (tasks fresh) with (@nil entry).
    split; [|constructor]. intros j x y _ _ Hy. by rewrite lookup_nil in Hy.
  - intros self o Hwf Hsync [Hh Hag].
    split; [by apply step_heap|by apply step_priorities_agree].
Qed.

Lemma sorted_by_priority_least x l :
  (∀ y, y ∈ l → priority_le x y) →
  sorted_by_priority (x :: l) = x :: sorted_by_priority l.
Proof.
  intros Hle. simpl. destruct (sorted_by_priority l) as [|y l'] eqn:Hs; [done|].
  simpl. rewrite (proj2 (Z.leb_le _ _)); [done|].
  apply Hle. rewrite <- (sorted_by_priority_perm l), Hs. by left.
Qed.

Lemma key_le_priority x y : key_le x y → priority_le x y.
Proof. unfold key_le, priority_le. intros [?|[? _]]; lia. Qed.
End heap_runs.

(** X15. The pending list is kept as a heap: after every run that began
    without a file, restarts included, no entry of [self.tasks] comes
    before its parent (the entry at position (j - 1) >> 1) in the order
    "lower priority first, then lower counter"; so the first entry of the
    list is a pending task of the least priority, and among those the one
    with the least counter. [heappush] keeps this, [heapify] restores it
    after the removal of a completed task, and renumbering the stored list
    on reload does not break it. *)
Theorem pending_list_is_heap (ops : list op) :
  is_heap (tasks (from_fresh ops))
  ∧ ∀ x y, tasks (from_fresh ops) !! 0 = Some x → y ∈ tasks (from_fresh ops) →
           key_le x y.
Proof.
  pose proof (from_fresh_heap ops) as Hheap.
  split; [done|]. intros x y Hx [j Hy]%list_elem_of_lookup.
  by eapply heap_root_min.
Qed.

(** X16. The listing of option 2 begins with the first entry of the
    pending list: after every run that began without a file, the task shown
    first is the one stored at position 0, a task of the least priority
    and, among the tasks of that priority, the one with the least counter.
    Ties further down the listing come in the order of the heap array. *)
Theorem pending_listing_begins_at_root (ops : list op) (x : entry) :
  tasks (from_fresh ops) !! 0 = Some x →
  head (pending_listing (from_fresh ops)) = Some (entry_task x)
  ∧ ∀ t, t ∈ pending_listing (from_fresh ops) →
         (priority (entry_task x) ≤ priority t)%Z.
Proof.
  intros Hx. pose proof (from_fresh_heap ops) as Hheap.
  assert (priorities_agree (tasks (from_fresh ops))) as Hag.
  { apply (from_fresh_ind (λ self, priorities_agree (tasks self))).
    - constructor.
    - intros self o Hwf Hsync Hag. by apply step_priorities_agree. }
  unfold pending_listing.
  assert (∀ y, y ∈ tasks (from_fresh ops) → priority_le x y) as Hmin.
  { intros y [j Hy]%list_elem_of_lookup.
    by eapply key_le_priority, heap_root_min. }
  split.
  - destruct (tasks (from_fresh ops)) as [|x' l] eqn:Hl; [done|].
    simpl in Hx. injection Hx as ->.
    rewrite sorted_by_priority_least; [done|].
    intros y Hy. apply Hmin. by right.
  - intros t (y & -> & Hy)%list_elem_of_fmap.
    rewrite sorted_by_priority_perm in Hy.
    unfold priorities_agree in Hag. rewrite Forall_forall in Hag.
    rewrite <- (Hag y Hy). rewrite <- (Hag x (list_elem_of_lookup_2 _ _ _ Hx)).
    by apply Hmin.
Qed.

Lemma pending_listing_begins_at_root_witness :
  head (pending_listing
          (from_fresh [Add "task1" (PyInt 5) [] None; Add "task2" (PyInt 1) [] None;
                       Add "task3" (PyInt 5) [] None; Add "task4" (PyInt 3) [] None]))
  = Some (entry_task (1%Z, 2, mkTask "task2" 1 [] None)).
Proof.
  apply (pending_listing_begins_at_root
           [Add "task1" (PyInt 5) [] None; Add "task2" (PyInt 1) [] None;
            Add "task3" (PyInt 5) [] None; Add "task4" (PyInt 3) [] None]
           (1%Z, 2, mkTask "task2" 1 [] None)).
  vm_compute. reflexivity.
Defined.

(** ** X17-X19: the menu *)

Section menu.
Implicit Types (self : TaskManager) (inputs : list string) (ops : list op).

Lemma menu_add_run self nombre prioridad dependencias deadline :
  ∃ ops, Forall menu_op ops
         ∧ menu_add self nombre prioridad dependencias deadline = run self ops.
Proof.
  unfold menu_add.
  destruct (bool_decide (strip deadline ≠ EmptyString)
            && negb (valid_deadline (strip deadline))) eqn:Hd.
  - by exists [].
  - exists [Add nombre (PyStr prioridad) (parse_dependencies dependencias)
                (Some (strip deadline))].
    split; [|done]. constructor; [|constructor]. simpl.
    split; [by eexists|]. split; [by eexists|].
    exists (strip deadline). split; [done|].
    apply andb_false_iff in Hd as [Hd|Hd].
    + left. apply bool_decide_eq_false in Hd. by apply dec_stable.
    + right. by apply negb_false_iff.
Qed.

Lemma parsed_names_clean line :
  Forall (λ dep, contains ","%char dep = false ∧ whitespace_only dep = false
                 ∧ strip dep = dep) (parse_dependencies line).
Proof.
  unfold parse_dependencies. apply Forall_fmap, Forall_forall.
  intros w [Hw Hin]%list_elem_of_filter. simpl. split_and!.
  - apply contains_rstrip, contains_lstrip.
    pose proof (split_pieces ","%char line) as Hp.
    rewrite Forall_forall in Hp. by apply Hp.
  - by apply strip_not_blank.
  - apply strip_idemp.
Qed.

Lemma run_app self ops ops' : run self (ops ++ ops') = run (run self ops) ops'.
Proof. unfold run. by rewrite foldl_app. Qed.

Lemma main_loop_run self inputs :
  ∃ ops, Forall menu_op ops ∧ main_loop self inputs = run self ops.
Proof.
  remember (length inputs) as n eqn:Hn.
  assert (length inputs ≤ n) as Hle by lia. clear Hn.
  revert self inputs Hle. induction n as [|n IH]; intros self inputs Hle.
  { destruct inputs; [by exists []|simpl in Hle; lia]. }
  destruct inputs as [|opcion rest]; [by exists []|].
  simpl in Hle. simpl.
  destruct (bool_decide (opcion = "1")).
  { destruct rest as [|nombre [|prioridad [|dependencias [|deadline rest]]]];
      try by exists [].
    destruct (menu_add_run self nombre prioridad dependencias deadline)
      as (ops & Hops & ->).
    destruct (IH (run self ops) rest) as (ops' & Hops' & ->); [simpl in Hle; lia|].
    exists (ops ++ ops'). split; [by apply Forall_app|by rewrite run_app]. }
  destruct (bool_decide (opcion = "3")).
  { destruct rest as [|nombre rest]; [by exists []|].
    destruct (IH (complete_task self nombre).2 rest) as (ops' & Hops' & ->);
      [simpl in Hle; lia|].
    exists (Complete nombre :: ops'). split; [by constructor|done]. }
  destruct (bool_decide (opcion = "6")); [by exists []|].
  apply IH. lia.
Qed.

Lemma sessions_run typed :
  ∃ ops, Forall session_op ops ∧ TaskManager_init (sessions typed) = from_fresh ops.
Proof.
  induction typed as [|inputs typed IH] using rev_ind; [by exists []|].
  destruct IH as (ops & Hops & Heq).
  unfold sessions. rewrite foldl_app. simpl. fold (sessions typed).
  unfold main. rewrite Heq.
  destruct (main_loop_run (from_fresh ops) inputs) as (ops' & Hops' & ->).
  exists (ops ++ ops' ++ [Restart]). split.
  - apply Forall_app. split; [done|]. apply Forall_app. split.
    + eapply Forall_impl; [exact Hops'|]. intros o Ho. by left.
    + constructor; [by right|constructor].
  - unfold from_fresh. by rewrite !run_app.
Qed.

Lemma session_tasks_typed ops x :
  Forall session_op ops → x ∈ tasks (from_fresh ops) → typed_task (entry_task x).
Proof.
  revert x. induction ops as [|o ops IH] using rev_ind; intros x Hops Hx.
  { by apply elem_of_nil in Hx. }
  apply Forall_app in Hops as [Hops Ho]. rewrite Forall_singleton in Ho.
  rewrite from_fresh_snoc in Hx.
  destruct (from_fresh_well_formed ops) as [Hwf Hsync].
  destruct (step_effect (from_fresh ops) o Hwf Hsync)
    as [Heq|[(n & p & z & deps & dl & -> & _ & _ & Hk & Hperm & _)
       |[(A & x0 & -> & _ & Hperm & _)
       |[(-> & _ & Ht & _)|(-> & _ & Heq)]]]]; cycle 4.
  { rewrite Heq in Hx. by apply elem_of_nil in Hx. }
  - rewrite Heq in Hx. by apply IH.
  - rewrite Hperm in Hx. apply elem_of_cons in Hx as [->|Hx]; [|by apply IH].
    destruct Ho as [Ho|Ho]; [|done].
    destruct Ho as (_ & (line & ->) & d & -> & Hd).
    split; simpl; [|by exists d].
    apply parsed_names_clean.
  - apply IH; [done|]. rewrite Hperm. by right.
  - assert (entry_task x ∈ entry_task <$> tasks (from_fresh ops))
      as (y & -> & Hin)%list_elem_of_fmap
      by (rewrite <- Ht; by apply list_elem_of_fmap_2).
    by apply IH.
Qed.
End menu.

(** X17. The menu is a run of the calls: whatever is typed, over any number
    of sessions of the program that began without a file, the manager that
    [main] holds is the one reached by a sequence of [add_task] and
    [complete_task] calls and restarts on the saved file. Every [add_task]
    among them has a string as priority, dependencies read from a typed
    line, and a deadline that is empty or a date; a deadline that is not a
    date never reaches [add_task]. So what holds after every run of calls
    and restarts holds of the program as it is used at the menu. *)
Theorem main_sessions_run (typed : list (list string)) (inputs : list string) :
  ∃ ops, Forall session_op ops ∧ main (sessions typed) inputs = from_fresh ops.
Proof.
  destruct (sessions_run typed) as (ops & Hops & Heq).
  unfold main. rewrite Heq.
  destruct (main_loop_run (from_fresh ops) inputs) as (ops' & Hops' & ->).
  exists (ops ++ ops'). split.
  - apply Forall_app. split; [done|].
    eapply Forall_impl; [exact Hops'|]. intros o Ho. by left.
  - unfold from_fresh. by rewrite run_app.
Qed.

(** X18. What the menu stores: over any number of sessions that began
    without a file, every pending task has dependencies free of commas,
    not blank and without blanks at their ends, and a deadline that is the
    empty string (never [None]) or a text that [strptime] read as a date. *)
Theorem menu_tasks_typed (typed : list (list string)) (inputs : list string)
    (x : entry) :
  x ∈ tasks (main (sessions typed) inputs) → typed_task (entry_task x).
Proof.
  destruct (sessions_run typed) as (ops & Hops & Heq).
  unfold main. rewrite Heq.
  destruct (main_loop_run (from_fresh ops) inputs) as (ops' & Hops' & ->).
  replace (run (from_fresh ops) ops') with (from_fresh (ops ++ ops'))
    by (unfold from_fresh; by rewrite run_app).
  apply session_tasks_typed, Forall_app. split; [done|].
  eapply Forall_impl; [exact Hops'|]. intros o Ho. by left.
Qed.

Lemma menu_tasks_typed_witness :
  typed_task (mkTask "Walls" 2 ["Foundation"] (Some "2024-02-29")).
Proof.
  apply (menu_tasks_typed
           [["1"; "Foundation"; "1"; ""; ""; "6"]]
           ["1"; "Walls"; " 2 "; " Foundation ,"; "2024-02-29 "; "2"]
           (2%Z, 2, mkTask "Walls" 2 ["Foundation"] (Some "2024-02-29"))).
  decide_by_computing.
Defined.

Section dates.
Implicit Types (c : ascii) (s r : string) (y m d k : nat).

















End dates.

